(** * redux-first-router: [src/utils/matchUrl.js]

    A shallow embedding of the URL matcher and of the two module-level
    caches it keeps ([queries], [patternCache] with [cacheCount]).

    Modelling conventions.
    - A JS value that is "a string or [undefined]" is an [option string],
      [None] being [undefined]. What a query object yields for a key can
      also be a built-in inherited from [Object.prototype]: such values
      are [jsval]s.
    - A plain object used as a dictionary is a [gmap string _] for its
      own properties. The objects the module creates with [{}] inherit
      from [Object.prototype]: a read [obj[key]] that finds no own
      property yields the inherited built-in when [key] names one
      ([inherited]), and an assignment to ["__proto__"] goes to the
      inherited setter. What [qs.parse] returns is a mapping from
      strings to strings without inherited properties.
    - The regular expressions built by path-to-regexp carry no [g]/[y]
      flag: such a [RegExp] is its [exec] function. A pattern the caller
      supplies as a matcher may carry one of these flags, and then its
      [test] reads and writes its [lastIndex], kept in the state.
    - Module-level bindings live in a [State] that every function threads;
      an exception (raised by the pattern compiler, or a [TypeError]) is
      the outcome [Throw].
    - Object identity of the [{ re, keys }] literals is an allocation
      stamp [oid]; the literals are never mutated, so a stamped value
      stands for the object.
    - Calls that leave the module (the three imported capabilities, the
      built-in [exec]/[test], caller-supplied predicates and [transform])
      are logged in [trace], most recent first. Predicates and
      [transform] are functions of their arguments; a predicate's answer
      is taken as the boolean the callers coerce it to.
    - The fields of a location are strings, as the Flow type [Location]
      has them; [matchQuery] itself also accepts [undefined]. *)

From stdpp Require Import gmap strings list fin_maps pretty.
From Stdlib Require Import ZArith Lia.

Local Open Scope string_scope.

(** ** JS values that occur in the module *)

Definition MatchArray : Type := list (option string).

(** A regular expression without the [g] and [y] flags. *)
Record RegExp := mkRegExp { exec : string → option MatchArray }.

Record Key := mkKey { name : string }.

(** [type Compiled = { re: RegExp, keys: Array<{ name: string }> }],
    stamped with the identity of the object literal. *)
Record Compiled := mkCompiled { oid : nat; re : RegExp; keys : list Key }.

(** The names of the properties of [Object.prototype]: those of the
    language standard and of its annex for web-compatible engines. *)
Definition Object_prototype : list string :=
  ["constructor"; "hasOwnProperty"; "isPrototypeOf"; "propertyIsEnumerable";
   "toLocaleString"; "toString"; "valueOf"; "__proto__";
   "__defineGetter__"; "__defineSetter__"; "__lookupGetter__"; "__lookupSetter__"].

(** [key] names a property that an object created with [{}] inherits. *)
Definition inherited (key : string) : bool := bool_decide (key ∈ Object_prototype).

(** A built-in, named by the path of property names that leads to it
    from an object created with [{}]: [["toString"]] is
    [Object.prototype.toString]. All of them are truthy. *)
Definition builtin : Type := list string.

(** What reading a property of a query object can give. *)
Inductive jsval :=
| VUndefined
| VString (s : string)
| VBuiltin (b : builtin).

#[global] Instance jsval_eq_dec : EqDecision jsval.
Proof. solve_decision. Defined.

(** A regular expression the caller supplies as a matcher. With the [g]
    or [y] flag ([advancing]) a match starts at [lastIndex]; [exec_at]
    gives the match from a start index together with its end index. *)
Record Pattern := mkPattern {
  pid : nat;
  advancing : bool;
  exec_at : nat → string → option (MatchArray * nat) }.

(** The value matchers the code dispatches on with [typeof] and
    [instanceof]; [MNull] and [MNumber] stand for the shapes that fall
    through to [return true]. An absent matcher is [None] at its use. *)
Inductive ValueMatcher :=
| MBoolean (b : bool)
| MString (s : string)
| MFunction (f : jsval → bool)
| MRegExp (r : Pattern)
| MNull
| MNumber (n : Z).

(** JS truthiness of a matcher value, as [matchers.hash && ...] tests it. *)
Definition truthy (e : ValueMatcher) : bool :=
  match e with
  | MBoolean b => b
  | MString s => negb (bool_decide (s = ""))
  | MFunction _ => true
  | MRegExp _ => true
  | MNull => false
  | MNumber n => negb (bool_decide (n = 0%Z))
  end.

(** What [qs.parse] returns. *)
Definition Query : Type := gmap string string.

(** The object [matchQuery] works on and returns: a parse, the literal
    [{}] of an empty search, or the built-in that [queries[search]]
    inherits. *)
Inductive QueryObj :=
| QParsed (q : Query)
| QLiteral
| QInherited (b : builtin).

(** A matcher object in [for ... in] enumeration order. *)
Definition QueryMatcher : Type := list (string * ValueMatcher).

Module Location.
Record t := mk { pathname : string; search : string; hash : string }.
End Location.

Module Matchers.
Record t := mk { path : string; query : option QueryMatcher; hash : option ValueMatcher }.
End Matchers.

Module Options.
Record t (A : Type) := mk {
  partial : option bool;
  strict : option bool;
  transform : option (option string → string → A) }.
Arguments mk {A} _ _ _.
Arguments partial {A} _.
Arguments strict {A} _.
Arguments transform {A} _.
(** [options = {}] *)
Definition empty {A} : t A := mk None None None.
End Options.

(** The object that [keys.reduce] builds from [{}] by assignments
    [params[name] = value]. As long as no assignment to ["__proto__"]
    has been made, each one creates or overwrites an own property
    ([own]). An assignment to ["__proto__"] runs the inherited setter
    and creates no own property; what the assignments after it do
    depends on the value given to the setter, so from the first such
    assignment on the object is kept as that value together with the
    assignments made since ([proto_assigned]). *)
Module Params.
Record t (A : Type) := mk {
  own : gmap string A;
  proto_assigned : option (A * list (string * A)) }.
Arguments mk {A} _ _.
Arguments own {A} _.
Arguments proto_assigned {A} _.
(** [{}] *)
Definition empty {A} : t A := mk ∅ None.
(** [params[key] = value] *)
Definition assign {A} (key : string) (value : A) (params : t A) : t A :=
  match proto_assigned params with
  | Some (first, later) => mk (own params) (Some (first, later ++ [(key, value)])%list)
  | None =>
    if bool_decide (key = "__proto__") then mk (own params) (Some (value, []))
    else mk (<[key := value]> (own params)) None
  end.
End Params.

Module MatchResult.
Record t (A : Type) := mk {
  params : option (Params.t A);
  query : QueryObj;
  hash : string;
  matchedPath : option string;
  matchers : Matchers.t;
  partial : bool }.
Arguments mk {A} _ _ _ _ _ _.
Arguments params {A} _.
Arguments query {A} _.
Arguments hash {A} _.
Arguments matchedPath {A} _.
Arguments matchers {A} _.
Arguments partial {A} _.
End MatchResult.

(** ** The imported capabilities and the built-ins *)

Class Externals := {
  (** [pathToRegexp(pattern, keys, { end, strict })]: the regular
      expression and the keys it pushed, or [None] when it raises. *)
  pathToRegexp : string → bool → bool → option (RegExp * list Key);
  (** [qs.parse] *)
  qs_parse : string → Query;
  (** [parsePath] of [../history/utils] *)
  parsePath : string → Location.t;
  (** [b[key]] for a built-in [b] *)
  builtin_get : builtin → string → jsval;
  (** [String(b)] for a built-in [b] *)
  builtin_ToString : builtin → string }.

(** [String(v)], the coercion [RegExp.prototype.test] applies. *)
Definition ToString `{Externals} (v : jsval) : string :=
  match v with
  | VUndefined => "undefined"
  | VString s => s
  | VBuiltin b => builtin_ToString b
  end.

(** [query[key]] *)
Definition query_get `{Externals} (query : QueryObj) (key : string) : jsval :=
  match query with
  | QParsed q => match q !! key with Some s => VString s | None => VUndefined end
  | QLiteral => if inherited key then VBuiltin [key] else VUndefined
  | QInherited b => builtin_get b key
  end.

(** What [cache[pattern]] gives when it is truthy: a stored compiled
    pattern, or the built-in that the bucket inherits under that name. *)
Inductive CacheValue :=
| Stored (c : Compiled)
| Inherited (b : builtin).

(** ** Module state and the monad that threads it *)

Inductive event :=
| CallParsePath (l : string)
| CallPathToRegexp (pattern : string) (end_ strict : bool)
| CallExec (stamp : nat) (path : string)
| CallQsParse (search : string)
| CallPredicate (val : jsval)
| CallTest (s : string)
| CallTransform (val : option string) (key : string).

(** The module-level bindings, the allocation stamp, the log, and the
    [lastIndex] of the caller's patterns ([0] when absent). *)
Record State := mkState {
  queries : gmap string Query;
  patternCache : gmap string (gmap string Compiled);
  cacheCount : Z;
  nextOid : nat;
  trace : list event;
  lastIndex : gmap nat nat }.

Definition cacheLimit : Z := 10000.

(** The state when the module has just been loaded. *)
Definition init : State := mkState ∅ ∅ 0 0 [] ∅.

Inductive outcome (T : Type) :=
| Ret (v : T)
| Throw.
Arguments Ret {T} _.
Arguments Throw {T}.

Definition M (T : Type) : Type := State → outcome T * State.

Definition ret {T} (v : T) : M T := λ st, (Ret v, st).

Definition bind {T U} (c : M T) (k : T → M U) : M U :=
  λ st, match c st with
        | (Ret v, st') => k v st'
        | (Throw, st') => (Throw, st')
        end.

Notation "'do' x <- c ; k" := (bind c (λ x, k))
  (at level 10, x name, c at level 100, k at level 200).
Notation "'do' ' ( x , y ) <- c ; k" := (bind c (λ '(x, y), k))
  (at level 10, x name, y name, c at level 100, k at level 200).
Notation "c ;; k" := (bind c (λ _, k))
  (at level 100, k at level 200, right associativity).

Definition throw {T} : M T := λ st, (Throw, st).

Definition emit (e : event) : M unit :=
  λ st, (Ret (), mkState (queries st) (patternCache st) (cacheCount st)
                         (nextOid st) (e :: trace st) (lastIndex st)).

Definition set_queries (q : gmap string Query) : M unit :=
  λ st, (Ret (), mkState q (patternCache st) (cacheCount st) (nextOid st) (trace st)
                         (lastIndex st)).

Definition set_patternCache (pc : gmap string (gmap string Compiled)) : M unit :=
  λ st, (Ret (), mkState (queries st) pc (cacheCount st) (nextOid st) (trace st)
                         (lastIndex st)).

Definition set_cacheCount (n : Z) : M unit :=
  λ st, (Ret (), mkState (queries st) (patternCache st) n (nextOid st) (trace st)
                         (lastIndex st)).

Definition set_lastIndex (li : gmap nat nat) : M unit :=
  λ st, (Ret (), mkState (queries st) (patternCache st) (cacheCount st) (nextOid st)
                         (trace st) li).

Definition gets {T} (f : State → T) : M T := λ st, (Ret (f st), st).

(** Evaluating the object literal [{ re, keys }]: a fresh identity. *)
Definition new_Compiled (r : RegExp) (ks : list Key) : M Compiled :=
  λ st, (Ret (mkCompiled (nextOid st) r ks),
         mkState (queries st) (patternCache st) (cacheCount st)
                 (S (nextOid st)) (trace st) (lastIndex st)).

(** [r.test(s)] for a matcher pattern: without the [g] and [y] flags a
    match from index 0 that leaves [lastIndex] alone; with one of them a
    match from [lastIndex], which is then set to the end of the match,
    or to 0 when there is none. *)
Definition test (r : Pattern) (s : string) : M bool :=
  if advancing r then
    do li <- gets lastIndex;
    match exec_at r (default 0 (li !! pid r)) s with
    | Some (_, e) => set_lastIndex (<[pid r := e]> li);; ret true
    | None => set_lastIndex (<[pid r := 0]> li);; ret false
    end
  else
    ret (match exec_at r 0 s with Some _ => true | None => false end).

Section Model.
Context {E : Externals} {A : Type}.

(** [`${partial ? 't' : 'f'}${strict ? 't' : 'f'}`] *)
Definition cacheKey (partial strict : bool) : string :=
  (if partial then "t" else "f") +:+ (if strict then "t" else "f").

(** [patternCache[cacheKey] || (patternCache[cacheKey] = {})]; none of
    the four keys names a property of [Object.prototype]. *)
Definition bucket (key : string) : M (gmap string Compiled) :=
  do pc <- gets patternCache;
  match pc !! key with
  | Some cache => ret cache
  | None => set_patternCache (<[key := ∅]> pc);; ret ∅
  end.

(** [cache[pattern] = compiledPattern], [cache] being the object held
    at [patternCache[key]]; reached only when [cache[pattern]] is
    falsy, so [pattern] is not ["__proto__"]. *)
Definition bucket_store (key pattern : string) (c : Compiled) : M unit :=
  do pc <- gets patternCache;
  set_patternCache (<[key := <[pattern := c]> (default ∅ (pc !! key))]> pc).

(** [cache[pattern]] on a bucket: an own property, else an inherited
    one, else [undefined]. *)
Definition cache_get (cache : gmap string Compiled) (pattern : string)
  : option CacheValue :=
  match cache !! pattern with
  | Some c => Some (Stored c)
  | None => if inherited pattern then Some (Inherited [pattern]) else None
  end.

Definition compilePath (pattern : string) (options : Options.t A) : M CacheValue :=
  let partial := default false (Options.partial options) in
  let strict := default false (Options.strict options) in
  let cacheKey := cacheKey partial strict in
  do cache <- bucket cacheKey;
  match cache_get cache pattern with
  | Some v => ret v
  | None =>
    emit (CallPathToRegexp pattern (negb partial) strict);;
    match pathToRegexp pattern (negb partial) strict with
    | None => throw
    | Some (re, keys) =>
      do compiledPattern <- new_Compiled re keys;
      do count <- gets cacheCount;
      (if (count <? cacheLimit)%Z
       then bucket_store cacheKey pattern compiledPattern;;
            set_cacheCount (count + 1)
       else ret ());;
      ret (Stored compiledPattern)
    end
  end.

(** [const { re, keys } = compilePath(...)], [re.exec(path)]: a
    built-in has no property [re], and [undefined.exec] raises. *)
Definition matchPath (path matcher : string) (options : Options.t A)
  : M (option MatchArray * list Key) :=
  do v <- compilePath matcher options;
  match v with
  | Stored c =>
    emit (CallExec (oid c) path);;
    ret (exec (re c) path, keys c)
  | Inherited _ => throw
  end.

Definition matchVal (val : jsval) (expected : ValueMatcher) : M bool :=
  match expected with
  | MBoolean _ =>
    ret (negb (bool_decide (val = VString "")) && negb (bool_decide (val = VUndefined)))
  | MString s => ret (bool_decide (VString s = val))
  | MFunction f => emit (CallPredicate val);; ret (f val)
  | MRegExp r => emit (CallTest (ToString val));; test r (ToString val)
  | MNull | MNumber _ => ret true
  end.

(** [queries[search] || (queries[search] = qs.parse(search))]: an own
    property, else an inherited one, else the parse, which is stored. *)
Definition parseSearch (search : string) : M QueryObj :=
  do qs <- gets queries;
  match qs !! search with
  | Some q => ret (QParsed q)
  | None =>
    if inherited search then ret (QInherited [search])
    else
      emit (CallQsParse search);;
      let q := qs_parse search in
      set_queries (<[search := q]> qs);;
      ret (QParsed q)
  end.

(** The [for (const key in matcher)] loop of [matchQuery], with its
    early [return null] and final [return query]. *)
Fixpoint matchQuery_loop (query : QueryObj) (entries : QueryMatcher)
  : M (option QueryObj) :=
  match entries with
  | [] => ret (Some query)
  | (key, expected) :: rest =>
    let val := query_get query key in
    do ok <- matchVal val expected;
    if negb ok then ret None else matchQuery_loop query rest
  end.

Definition matchQuery (search : option string) (matcher : option QueryMatcher)
  : M (option QueryObj) :=
  do query <- match search with
              | Some s => if bool_decide (s = "") then ret QLiteral else parseSearch s
              | None => ret QLiteral
              end;
  match matcher with
  | None => ret (Some query)
  | Some entries => matchQuery_loop query entries
  end.

(** [keys.reduce((params, key, index) => { ... }, {})] from position
    [index] on, with accumulator [params]. *)
Fixpoint reduce_params (transform : option string → string → A)
    (values : MatchArray) (ks : list Key) (index : nat)
    (params : Params.t A) : M (Params.t A) :=
  match ks with
  | [] => ret params
  | key :: rest =>
    let v := default None (values !! index) in
    emit (CallTransform v (name key));;
    reduce_params transform values rest (S index)
                  (Params.assign (name key) (transform v (name key)) params)
  end.

(** [typeof l === 'string' ? parsePath(l) : l] *)
Definition decompose (l : string + Location.t) : M Location.t :=
  match l with
  | inl s => emit (CallParsePath s);; ret (parsePath s)
  | inr loc => ret loc
  end.

(** [matchers.hash && !matchVal(hash, matchers.hash)], as the condition
    of the [if] that returns [null]. *)
Definition hashMismatch (matchers : Matchers.t) (hash : string) : M bool :=
  match Matchers.hash matchers with
  | Some expected =>
    if truthy expected
    then do ok <- matchVal (VString hash) expected; ret (negb ok)
    else ret false
  | None => ret false
  end.

(** [let params; if (transform) { params = keys.reduce(..., {}) }] *)
Definition transformed (options : Options.t A) (values : MatchArray) (ks : list Key)
  : M (option (Params.t A)) :=
  match Options.transform options with
  | Some transform =>
    do params <- reduce_params transform values ks 0 Params.empty;
    ret (Some params)
  | None => ret None
  end.

(** [matchers.path === '/' && path === '' ? '/' : path] *)
Definition matchedPath_of (matchers : Matchers.t) (path : option string) : option string :=
  if bool_decide (Matchers.path matchers = "/") && bool_decide (path = Some "")
  then Some "/" else path.

Definition matchUrl (l : string + Location.t) (matchers : Matchers.t)
    (options : Options.t A) : M (option (MatchResult.t A)) :=
  do loc <- decompose l;
  let pathname := Location.pathname loc in
  let search := Location.search loc in
  let hash := Location.hash loc in
  do '(match_, keys) <- matchPath pathname (Matchers.path matchers) options;
  match match_ with
  | None => ret None
  | Some match_ =>
    do query <- matchQuery (Some search) (Matchers.query matchers);
    match query with
    | None => ret None
    | Some query =>
      do mismatch <- hashMismatch matchers hash;
      if mismatch : bool then ret None else
      (* [const [path, ...values] = match] *)
      let path := default None (head match_) in
      let values := tail match_ in
      do params <- transformed options values keys;
      ret (Some (MatchResult.mk
                   params
                   query
                   hash
                   (matchedPath_of matchers path)
                   matchers
                   (default false (Options.partial options))))
    end
  end.

End Model.

(** ** Derived notions used to state the properties *)

(** The entry stored in bucket [key] for [pattern], if any. *)
Definition cache_lookup (st : State) (key pattern : string) : option Compiled :=
  patternCache st !! key ≫= λ cache, cache !! pattern.

(** The bucket key and the compiler flags a call with [options] uses. *)
Definition flags {A} (options : Options.t A) : bool * bool :=
  (default false (Options.partial options), default false (Options.strict options)).

Definition key_of {A} (options : Options.t A) : string :=
  cacheKey (flags options).1 (flags options).2.

(** What the imported compiler answers for [pattern] under [options]. *)
Definition compiler_output `{Externals} {A} (pattern : string) (options : Options.t A)
  : option (RegExp * list Key) :=
  pathToRegexp pattern (negb (flags options).1) (flags options).2.

(** One call of the exported function, whatever its arguments; between
    calls the caller may use or reset the patterns it owns. *)
Inductive step `{Externals} {A : Type} : State → State → Prop :=
| step_matchUrl st l (m : Matchers.t) (o : Options.t A) :
    step st (matchUrl l m o st).2
| step_caller st li :
    step st (set_lastIndex li st).2.

(** States the module can be in after any number of calls. *)
Definition steps `{Externals} {A : Type} : State → State → Prop := rtc (step (A := A)).

Definition reachable `{Externals} {A : Type} (st : State) : Prop := steps (A := A) init st.

(** Every cached value is what the corresponding imported capability
    computes for its key. *)
Definition coherent `{Externals} (st : State) : Prop :=
  (∀ s q, queries st !! s = Some q → q = qs_parse s) ∧
  (∀ key pattern c, cache_lookup st key pattern = Some c →
     ∃ partial strict, key = cacheKey partial strict ∧
       pathToRegexp pattern (negb partial) strict = Some (re c, keys c)).

(** Moreover nothing is stored under the name of a property of
    [Object.prototype]. *)
Definition tidy `{Externals} (st : State) : Prop :=
  coherent st ∧
  (∀ s, inherited s = true → queries st !! s = None) ∧
  (∀ key pattern, inherited pattern = true → cache_lookup st key pattern = None).

(** Calls made while a path is matched. *)
Definition compile_or_exec (e : event) : Prop :=
  match e with
  | CallPathToRegexp _ _ _ | CallExec _ _ => True
  | _ => False
  end.

(** The object [matchQuery] works on when the query cache is tidy: the
    literal [{}] for an empty or absent search, the inherited built-in
    for a search that names one, else what [qs.parse] makes of it. *)
Definition query_of `{Externals} (search : option string) : QueryObj :=
  match search with
  | Some s =>
    if bool_decide (s = "") then QLiteral
    else if inherited s then QInherited [s]
    else QParsed (qs_parse s)
  | None => QLiteral
  end.

(** Calls made while a value matcher is evaluated. *)
Definition matcher_call (e : event) : Prop :=
  match e with
  | CallPredicate _ | CallTest _ => True
  | _ => False
  end.

(** The patterns among the matchers of a descriptor. *)
Definition pattern_of (expected : ValueMatcher) : list Pattern :=
  match expected with
  | MRegExp r => [r]
  | _ => []
  end.

Definition matcher_patterns (m : Matchers.t) : list Pattern :=
  (from_option pattern_of [] (Matchers.hash m)
   ++ from_option (λ entries, entries ≫= λ entry, pattern_of entry.2) []
        (Matchers.query m))%list.

(** ** Relations between the state before and after a computation *)

(** [c] takes every state to an [R]-related one, whatever it returns. *)
Definition respects {T} (R : relation State) (c : M T) : Prop :=
  ∀ st, R st (c st).2.

(** The counter does not pass the ceiling. *)
Definition bounded (st st' : State) : Prop :=
  (cacheCount st ≤ cacheLimit → cacheCount st' ≤ cacheLimit)%Z.

(** No entry of the pattern cache is dropped or replaced. *)
Definition retains (st st' : State) : Prop :=
  ∀ k q c, cache_lookup st k q = Some c → cache_lookup st' k q = Some c.

(** From the ceiling on, counter and cached entries stay as they are. *)
Definition latched (st st' : State) : Prop :=
  (cacheLimit ≤ cacheCount st)%Z →
  cacheCount st' = cacheCount st ∧
  ∀ k q, cache_lookup st' k q = cache_lookup st k q.

Definition cache_evolves (st st' : State) : Prop :=
  bounded st st' ∧ retains st st' ∧ latched st st'.

Definition same_queries (st st' : State) : Prop := queries st' = queries st.

Definition same_patterns (st st' : State) : Prop :=
  patternCache st' = patternCache st ∧ cacheCount st' = cacheCount st ∧
  nextOid st' = nextOid st.

(** The calls logged between [st] and [st'] all satisfy [P]. *)
Definition logs (P : event → Prop) (st st' : State) : Prop :=
  ∃ evs, trace st' = (evs ++ trace st)%list ∧ Forall P evs.

(** ** Relations between two runs of a computation *)

(** From [Rel]-related states [c] returns the same outcome and leaves
    [Rel]-related states. *)
Definition simulates {T} (Rel : relation State) (c : M T) : Prop :=
  ∀ st1 st2, Rel st1 st2 → (c st1).1 = (c st2).1 ∧ Rel (c st1).2 (c st2).2.

(** Two tidy states in which the patterns with an identity in [D] have
    the same [lastIndex]. *)
Definition tidy_agree `{Externals} (D : nat → Prop) (st1 st2 : State) : Prop :=
  tidy st1 ∧ tidy st2 ∧
  ∀ n, D n → default 0 (lastIndex st1 !! n) = default 0 (lastIndex st2 !! n).

(** Two states that differ in the log at most. *)
Definition same_but_trace (st1 st2 : State) : Prop :=
  queries st1 = queries st2 ∧ patternCache st1 = patternCache st2 ∧
  cacheCount st1 = cacheCount st2 ∧ nextOid st1 = nextOid st2 ∧
  lastIndex st1 = lastIndex st2.

(** The identities of the patterns of [m] that carry the [g] or [y]
    flag. *)
Definition advancing_ids (m : Matchers.t) (n : nat) : Prop :=
  ∃ r, r ∈ matcher_patterns m ∧ advancing r = true ∧ pid r = n.

(** No pattern of [m] carries the [g] or [y] flag. *)
Definition stateless (m : Matchers.t) : Prop :=
  Forall (λ r, advancing r = false) (matcher_patterns m).

(** ** Notions for the cache contents, the verdicts and the call log *)





(** The number of compiled patterns held in all buckets together. *)
Definition total_entries (st : State) : nat :=
  map_fold (λ _ (cache : gmap string Compiled) n, size cache + n) 0 (patternCache st).

(** The names a bucket can have. *)
Definition bucket_keys : list string := ["ff"; "ft"; "tf"; "tt"].

(** No entry of the query cache is dropped or replaced. *)
Definition queries_retained (st st' : State) : Prop :=
  ∀ s q, queries st !! s = Some q → queries st' !! s = Some q.

(** The difference between counter and held patterns is the same. *)
Definition same_surplus (st st' : State) : Prop :=
  (cacheCount st' - Z.of_nat (total_entries st'))%Z
  = (cacheCount st - Z.of_nat (total_entries st))%Z.

(** Only the four bucket names are in use. *)
Definition four_buckets (st : State) : Prop :=
  ∀ k, is_Some (patternCache st !! k) → k ∈ bucket_keys.

Definition not_transform (e : event) : Prop :=
  match e with
  | CallTransform _ _ => False
  | _ => True
  end.

(** Calls other than those of the compiler and of [qs.parse]. *)
Definition no_compile_no_parse (e : event) : Prop :=
  match e with
  | CallPathToRegexp _ _ _ | CallQsParse _ => False
  | _ => True
  end.

(** The calls of [transform] that [keys.reduce] makes, oldest first. *)
Definition transform_calls (values : MatchArray) (ks : list Key) : list event :=
  imap (λ i key, CallTransform (default None (values !! i)) (name key)) ks.

(** The location [matchUrl] works on. *)
Definition loc_of `{Externals} (l : string + Location.t) : Location.t :=
  match l with
  | inl s => parsePath s
  | inr loc => loc
  end.

(** The descriptor without its hash matcher. *)
Definition without_hash (m : Matchers.t) : Matchers.t :=
  Matchers.mk (Matchers.path m) (Matchers.query m) None.

(** The result with another descriptor in its [matchers] field. *)
Definition with_matchers {A} (m : Matchers.t) (r : MatchResult.t A) : MatchResult.t A :=
  MatchResult.mk (MatchResult.params r) (MatchResult.query r) (MatchResult.hash r)
                 (MatchResult.matchedPath r) m (MatchResult.partial r).

Definition outcome_map {T U} (f : T → U) (r : outcome T) : outcome U :=
  match r with
  | Ret v => Ret (f v)
  | Throw => Throw
  end.

(** ** Stand-ins for the imported capabilities, to run the model *)

Module Sample.

(** A compiler for four kinds of pattern: ["/"] (non-strict: the empty
    path and ["/"], every path when not anchored at the end),
    ["/users/:id"], ["/:__proto__"], and literal paths; ["("] is
    rejected. *)
Definition compile (pattern : string) (end_ strict : bool) : option (RegExp * list Key) :=
  if bool_decide (pattern = "(") then None
  else if bool_decide (pattern = "/") then
    Some (mkRegExp (λ path,
            if bool_decide (path = "") then (if strict then None else Some [Some ""])
            else if bool_decide (path = "/") then Some [Some "/"]
            else if end_ then None else Some [Some ""]), [])
  else if bool_decide (pattern = "/users/:id") then
    Some (mkRegExp (λ path,
            if String.prefix "/users/" path && negb (bool_decide (path = "/users/"))
            then Some [Some path; Some (String.substring 7 (String.length path - 7) path)]
            else None), [mkKey "id"])
  else if bool_decide (pattern = "/:__proto__") then
    Some (mkRegExp (λ path,
            if String.prefix "/" path && negb (bool_decide (path = "/"))
            then Some [Some path; Some (String.substring 1 (String.length path - 1) path)]
            else None), [mkKey "__proto__"])
  else
    Some (mkRegExp (λ path,
            if bool_decide (path = pattern) then Some [Some path] else None), []).

(** [x=1] style queries with a single pair. *)
Definition parse (s : string) : Query :=
  if bool_decide (s = "?x=1") then {[ "x" := "1" ]}
  else if bool_decide (s = "?x=2") then {[ "x" := "2" ]}
  else ∅.

(** Splits at the first ["#"], then at the first ["?"]. *)
Definition split_path (l : string) : Location.t :=
  let n := String.length l in
  let h := default n (String.index 0 "#" l) in
  let before := String.substring 0 h l in
  let q := default h (String.index 0 "?" before) in
  Location.mk (String.substring 0 q before)
              (String.substring q (h - q) before)
              (String.substring (S h) (n - S h) l).

(** Of the properties of the built-ins only the [name] of a function. *)
Definition get (b : builtin) (key : string) : jsval :=
  match b with
  | [f] => if bool_decide (key = "name") && negb (bool_decide (f = "__proto__"))
           then VString (if bool_decide (f = "constructor") then "Object" else f)
           else VUndefined
  | _ => VUndefined
  end.

Definition to_string (b : builtin) : string := "[built-in]".

#[local] Instance externals : Externals :=
  {| pathToRegexp := compile; qs_parse := parse; parsePath := split_path;
     builtin_get := get; builtin_ToString := to_string |}.

(** [options = {}], with string-valued params. *)
Definition o0 : Options.t string := Options.empty.

(** A transform that marks the value it is given. *)
Definition mark (v : option string) (key : string) : string :=
  match v with Some s => s | None => "undefined" end +:+ "!".

(** The pattern [/sec/g]. *)
Definition sec_g : Pattern :=
  mkPattern 1 true
    (λ start s, match String.index start "sec" s with
                | Some i => Some ([Some "sec"], i + 3)
                | None => None
                end).

(** Calls of [matchUrl] with pairwise different patterns ["/p0"],
    ["/p1"], ...: [drive n st] is the state after the first [n] of them. *)
Definition nth_pattern (n : N) : string := "/p" +:+ pretty n.

Definition drive_step (p : N * State) : N * State :=
  (N.succ p.1,
   (matchUrl (inr (Location.mk "/" "" "")) (Matchers.mk (nth_pattern p.1) None None)
             o0 p.2).2).

Definition drive (n : N) (st : State) : State := (N.iter n drive_step (0%N, st)).2.

End Sample.

(** * Properties *)

Ltac run :=
  unfold bind, ret, gets, emit, throw, set_queries, set_patternCache,
    set_cacheCount, set_lastIndex, new_Compiled; simpl.

Section Proofs.
Context {E : Externals} {A : Type}.
Implicit Types (st : State) (o : Options.t A) (m : Matchers.t).

(** ** The pattern compiler cache *)

Lemma cacheKey_inj p s p' s' : cacheKey p s = cacheKey p' s' → p = p' ∧ s = s'.
Proof. destruct p, s, p', s'; simpl; intros H; try discriminate H; done. Qed.

Lemma lookup_insert_bucket (pc : gmap string (gmap string Compiled)) key pattern c k q :
  (<[key := <[pattern := c]> (default ∅ (pc !! key))]> pc !! k ≫= λ cache, cache !! q)
  = if decide (k = key ∧ q = pattern) then Some c
    else pc !! k ≫= λ cache, cache !! q.
Proof.
  destruct (decide (k = key)) as [->|Hk].
  - rewrite lookup_insert_eq; simpl.
    destruct (decide (q = pattern)) as [->|Hq].
    + rewrite lookup_insert_eq. rewrite decide_True; done.
    + rewrite lookup_insert_ne; [|done].
      rewrite decide_False; [|by intros [_ ?]].
      destruct (pc !! key); [done|]. apply lookup_empty.
  - rewrite lookup_insert_ne; [|done].
    rewrite decide_False; [done|by intros [? _]].
Qed.

Lemma lookup_empty_bucket (pc : gmap string (gmap string Compiled)) key k q :
  pc !! key = None →
  (<[key := ∅]> pc !! k ≫= λ cache, cache !! q) = (pc !! k ≫= λ cache, cache !! q).
Proof.
  intros Hnone.
  destruct (decide (k = key)) as [->|Hk].
  - rewrite lookup_insert_eq, Hnone; simpl. apply lookup_empty.
  - rewrite lookup_insert_ne; done.
Qed.

(** The four ways a call of [compilePath] can go, with its whole effect
    on the state. *)
Lemma compilePath_spec pattern o st :
  match cache_lookup st (key_of o) pattern with
  | Some c => compilePath pattern o st = (Ret (Stored c), st)
  | None =>
    if inherited pattern then
      ∃ st', compilePath pattern o st = (Ret (Inherited [pattern]), st') ∧
        queries st' = queries st ∧ cacheCount st' = cacheCount st ∧
        nextOid st' = nextOid st ∧ trace st' = trace st ∧
        lastIndex st' = lastIndex st ∧
        ∀ k q, cache_lookup st' k q = cache_lookup st k q
    else
    let ev := CallPathToRegexp pattern (negb (flags o).1) (flags o).2 in
    match compiler_output pattern o with
    | None =>
      ∃ st', compilePath pattern o st = (Throw, st') ∧
        queries st' = queries st ∧ cacheCount st' = cacheCount st ∧
        nextOid st' = nextOid st ∧ trace st' = ev :: trace st ∧
        lastIndex st' = lastIndex st ∧
        ∀ k q, cache_lookup st' k q = cache_lookup st k q
    | Some (r, ks) =>
      let c := mkCompiled (nextOid st) r ks in
      ∃ st', compilePath pattern o st = (Ret (Stored c), st') ∧
        queries st' = queries st ∧ nextOid st' = S (nextOid st) ∧
        trace st' = ev :: trace st ∧
        lastIndex st' = lastIndex st ∧
        if (cacheCount st <? cacheLimit)%Z
        then cacheCount st' = (cacheCount st + 1)%Z ∧
             ∀ k q, cache_lookup st' k q
                    = if decide (k = key_of o ∧ q = pattern) then Some c
                      else cache_lookup st k q
        else cacheCount st' = cacheCount st ∧
             ∀ k q, cache_lookup st' k q = cache_lookup st k q
    end
  end.
Proof.
  unfold compiler_output, key_of, flags; simpl.
  set (partial := default false (Options.partial o)).
  set (strict := default false (Options.strict o)).
  unfold compilePath, bucket, cache_get. fold partial strict.
  set (key := cacheKey partial strict).
  unfold cache_lookup at 1.
  destruct (patternCache st !! key) as [cache|] eqn:Hb; simpl.
  - (* the bucket exists *)
    destruct (cache !! pattern) as [c|] eqn:Hc.
    + run. by rewrite Hb, Hc.
    + run. rewrite Hb, Hc.
      destruct (inherited pattern).
      { exists st. done. }
      destruct (pathToRegexp pattern (negb partial) strict) as [[r ks]|]; simpl.
      * destruct (cacheCount st <? cacheLimit)%Z eqn:Hlt; simpl.
        -- eexists. split; [reflexivity|]. simpl. repeat split; try done.
           intros k q. unfold cache_lookup, bucket_store; run.
           apply lookup_insert_bucket.
        -- eexists. split; [reflexivity|]. simpl. repeat split; done.
      * eexists. split; [reflexivity|]. simpl. repeat split; done.
  - (* the bucket is created by this call *)
    run. rewrite Hb; simpl. rewrite lookup_empty.
    destruct (inherited pattern).
    { eexists. split; [reflexivity|]. simpl. repeat split; try done.
      intros k q. by apply lookup_empty_bucket. }
    destruct (pathToRegexp pattern (negb partial) strict) as [[r ks]|]; simpl.
    + destruct (cacheCount st <? cacheLimit)%Z eqn:Hlt; simpl.
      * eexists. split; [reflexivity|]. simpl. repeat split; try done.
        intros k q. unfold cache_lookup, bucket_store; run.
        rewrite lookup_insert_eq; simpl. rewrite insert_insert_eq.
        pose proof (lookup_insert_bucket (patternCache st) key pattern
                      (mkCompiled (nextOid st) r ks) k q) as HX.
        rewrite Hb in HX; simpl in HX. exact HX.
      * eexists. split; [reflexivity|]. simpl. repeat split; try done.
        intros k q. by apply lookup_empty_bucket.
    + eexists. split; [reflexivity|]. simpl. repeat split; try done.
      intros k q. by apply lookup_empty_bucket.
Qed.

(** ** Composition of state relations *)

Lemma respects_ret {T} (R : relation State) `{!Reflexive R} (v : T) : respects R (ret v).
Proof. intros st. simpl. reflexivity. Qed.

Lemma respects_throw {T} (R : relation State) `{!Reflexive R} : respects R (@throw T).
Proof. intros st. simpl. reflexivity. Qed.

Lemma respects_gets {T} (R : relation State) `{!Reflexive R} (f : State → T) :
  respects R (gets f).
Proof. intros st. simpl. reflexivity. Qed.

Lemma respects_bind {T U} (R : relation State) `{!Transitive R}
    (c : M T) (k : T → M U) :
  respects R c → (∀ v, respects R (k v)) → respects R (bind c k).
Proof.
  intros Hc Hk st. unfold bind.
  specialize (Hc st). destruct (c st) as [[v|] st1]; simpl in *; [|done].
  etrans; [exact Hc|]. apply Hk.
Qed.

Create HintDb respects.

Ltac respects_step :=
  first
    [ solve [auto with respects]
    | apply respects_ret; apply _
    | apply respects_throw; apply _
    | apply respects_gets; apply _
    | apply respects_bind; [apply _| |intros]
    | match goal with
      | |- respects _ (match ?x with _ => _ end) => destruct x
      | |- respects _ (let '(_, _) := ?x in _) => destruct x
      | |- respects _ (if ?b then _ else _) => destruct b
      end ].

Section Respects.
Context (R : relation State) `{!PreOrder R}.
Hypothesis R_emit : ∀ e, respects R (emit e).
Hypothesis R_lastIndex : ∀ li, respects R (set_lastIndex li).

Lemma respects_test r s : respects R (test r s).
Proof. unfold test. repeat respects_step. Qed.

#[local] Hint Resolve respects_test : respects.

Lemma respects_matchVal val expected : respects R (matchVal val expected).
Proof. unfold matchVal. repeat respects_step. Qed.

#[local] Hint Resolve respects_matchVal : respects.

Lemma respects_reduce_params f values ks index (params : Params.t A) :
  respects R (reduce_params f values ks index params).
Proof.
  revert index params. induction ks as [|key rest IH]; intros; simpl;
    repeat respects_step.
Qed.

#[local] Hint Resolve respects_reduce_params : respects.

Lemma respects_decompose l : respects R (decompose l).
Proof. unfold decompose. repeat respects_step. Qed.

Lemma respects_hashMismatch m hash : respects R (hashMismatch m hash).
Proof. unfold hashMismatch. repeat respects_step. Qed.

Lemma respects_transformed o values ks : respects R (transformed o values ks).
Proof. unfold transformed. repeat respects_step. Qed.

Lemma respects_matchQuery_loop query entries :
  respects R (matchQuery_loop query entries).
Proof.
  induction entries as [|[key expected] rest IH]; simpl; repeat respects_step.
Qed.

#[local] Hint Resolve respects_decompose respects_hashMismatch respects_transformed
  respects_matchQuery_loop : respects.

(** Through a call of [matchUrl], as soon as the relation holds through
    compiling the pattern of the call and through [parseSearch]. *)
Section Call.
Variables (m : Matchers.t) (o : Options.t A).
Hypothesis R_compile : respects R (compilePath (Matchers.path m) o).
Hypothesis R_parse : ∀ search, respects R (parseSearch search).

Lemma respects_call_matchPath path : respects R (matchPath path (Matchers.path m) o).
Proof. unfold matchPath. repeat respects_step. Qed.

Lemma respects_call_matchQuery search matcher : respects R (matchQuery search matcher).
Proof. unfold matchQuery. repeat respects_step. Qed.

#[local] Hint Resolve respects_call_matchPath respects_call_matchQuery : respects.

Lemma respects_call_matchUrl l : respects R (matchUrl l m o).
Proof. unfold matchUrl. repeat respects_step. Qed.

End Call.

Hypothesis R_set_queries : ∀ q, respects R (set_queries q).

Lemma respects_parseSearch search : respects R (parseSearch search).
Proof. unfold parseSearch. repeat respects_step. Qed.

Lemma respects_matchQuery search matcher : respects R (matchQuery search matcher).
Proof. apply respects_call_matchQuery, respects_parseSearch. Qed.

Hypothesis R_compile : ∀ pattern o, respects R (compilePath pattern o).

Lemma respects_matchPath path matcher o : respects R (matchPath path matcher o).
Proof. unfold matchPath. repeat respects_step. Qed.

Lemma respects_matchUrl l m o : respects R (matchUrl l m o).
Proof. apply respects_call_matchUrl; [apply R_compile|apply respects_parseSearch]. Qed.

End Respects.

(** ** How the pattern cache and its counter evolve *)

#[local] Instance cache_evolves_preorder : PreOrder cache_evolves.
Proof.
  split.
  - intros st. split; [|split]; [by intros ?|by intros ????|by intros ?].
  - intros st1 st2 st3 (Hb1 & Hr1 & Hl1) (Hb2 & Hr2 & Hl2).
    split; [|split].
    + intros H. apply Hb2, Hb1, H.
    + intros k q c H. apply Hr2, Hr1, H.
    + intros H. destruct (Hl1 H) as [Hc1 Hk1].
      destruct Hl2 as [Hc2 Hk2]; [lia|].
      split; [lia|]. intros k q. by rewrite Hk2, Hk1.
Qed.

#[local] Instance same_queries_preorder : PreOrder same_queries.
Proof.
  split; [done|]. intros st1 st2 st3 H1 H2. unfold same_queries in *. congruence.
Qed.

#[local] Instance same_patterns_preorder : PreOrder same_patterns.
Proof.
  split; [done|].
  intros st1 st2 st3 (?&?&?) (?&?&?). unfold same_patterns. repeat split; congruence.
Qed.

#[local] Instance logs_preorder P : PreOrder (logs P).
Proof.
  split.
  - intros st. by exists [].
  - intros st1 st2 st3 (evs1 & H1 & HP1) (evs2 & H2 & HP2).
    exists (evs2 ++ evs1)%list. split.
    + rewrite H2, H1. apply app_assoc.
    + by apply Forall_app.
Qed.

Lemma same_patterns_cache_evolves st st' : same_patterns st st' → cache_evolves st st'.
Proof.
  intros (Hpc & Hcount & _).
  assert (∀ k q, cache_lookup st' k q = cache_lookup st k q) as Hlook.
  { intros k q. unfold cache_lookup. by rewrite Hpc. }
  split; [|split].
  - intros H. by rewrite Hcount.
  - intros k q c H. by rewrite Hlook.
  - done.
Qed.

(** The cases of [compilePath_spec] in which nothing is stored. *)
Lemma compilePath_cases pattern o st :
  let st' := (compilePath pattern o st).2 in
  queries st' = queries st ∧ lastIndex st' = lastIndex st ∧
  ((cacheCount st' = cacheCount st ∧
    ∀ k q, cache_lookup st' k q = cache_lookup st k q) ∨
   (cache_lookup st (key_of o) pattern = None ∧ inherited pattern = false ∧
    (cacheCount st < cacheLimit)%Z ∧
    cacheCount st' = (cacheCount st + 1)%Z ∧
    ∃ c, compilePath pattern o st = (Ret (Stored c), st') ∧
      compiler_output pattern o = Some (re c, keys c) ∧ oid c = nextOid st ∧
      ∀ k q, cache_lookup st' k q
             = if decide (k = key_of o ∧ q = pattern) then Some c
               else cache_lookup st k q)).
Proof.
  pose proof (compilePath_spec pattern o st) as Hspec.
  destruct (cache_lookup st (key_of o) pattern) as [c|] eqn:Hlook.
  { rewrite Hspec. simpl. split; [done|]. split; [done|]. by left. }
  destruct (inherited pattern) eqn:Hinh.
  { destruct Hspec as (st' & -> & ? & ? & _ & _ & ? & ?). simpl.
    split; [done|]. split; [done|]. by left. }
  simpl in Hspec. destruct (compiler_output pattern o) as [[r ks]|].
  - destruct Hspec as (st' & Hrun & ? & _ & _ & ? & Hcase). rewrite Hrun. simpl.
    split; [done|]. split; [done|].
    destruct (Z.ltb_spec (cacheCount st) cacheLimit) as [Hlt|Hge].
    + right. destruct Hcase as [? ?]. do 4 (split; [done|]).
      eexists. split; [done|]. done.
    + left. done.
  - destruct Hspec as (st' & -> & ? & ? & _ & _ & ? & ?). simpl.
    split; [done|]. split; [done|]. by left.
Qed.

Lemma compilePath_cache_evolves pattern o : respects cache_evolves (compilePath pattern o).
Proof.
  intros st.
  destruct (compilePath_cases pattern o st)
    as (_ & _ & [[Hcount Hk]|(Hmiss & _ & Hlt & Hcount & c & _ & _ & _ & Hk)]).
  - split; [|split].
    + intros H. lia.
    + intros k q c Hc. by rewrite Hk.
    + done.
  - split; [|split].
    + intros _. lia.
    + intros k q c' Hc. rewrite Hk. case_decide as Heq; [|done].
      destruct Heq as [-> ->]. congruence.
    + intros H. lia.
Qed.

Lemma matchUrl_cache_evolves l m o : respects cache_evolves (matchUrl l m o).
Proof.
  apply respects_matchUrl; [apply _| | | |].
  - intros e st. by apply same_patterns_cache_evolves.
  - intros li st. by apply same_patterns_cache_evolves.
  - intros q st. by apply same_patterns_cache_evolves.
  - apply compilePath_cache_evolves.
Qed.

Lemma steps_cache_evolves st st' : steps (A := A) st st' → cache_evolves st st'.
Proof.
  induction 1 as [st|st1 st2 st3 Hstep _ IH]; [reflexivity|].
  etrans; [|exact IH]. destruct Hstep.
  - apply matchUrl_cache_evolves.
  - by apply same_patterns_cache_evolves.
Qed.

(** ** Path matching *)

Lemma matchPath_unfold path matcher o st :
  matchPath path matcher o st =
  match compilePath matcher o st with
  | (Ret (Stored c), st') =>
    (Ret (exec (re c) path, keys c),
     mkState (queries st') (patternCache st') (cacheCount st') (nextOid st')
             (CallExec (oid c) path :: trace st') (lastIndex st'))
  | (Ret (Inherited _), st') => (Throw, st')
  | (Throw, st') => (Throw, st')
  end.
Proof.
  unfold matchPath. unfold bind at 1.
  destruct (compilePath matcher o st) as [[[c|b]|] st']; reflexivity.
Qed.

(** C5, at an input where the code departs from it. Nothing is stored
    for the pattern ["constructor"] and the counter is below the
    ceiling, yet [compilePath] does not call the compiler, stores
    nothing and leaves the counter as it is, now and at every later
    call: the read [cache[pattern]] finds the property that the bucket
    inherits from [Object.prototype]. So does a call of [matchUrl] with
    that pattern, which raises. *)
Theorem inherited_name_is_never_compiled (o : Options.t A) :
  let first := compilePath "constructor" o init in
  let second := compilePath "constructor" o first.2 in
  cache_lookup init (key_of o) "constructor" = None ∧
  (cacheCount init < cacheLimit)%Z ∧
  first.1 = Ret (Inherited ["constructor"]) ∧
  trace first.2 = [] ∧
  cacheCount first.2 = cacheCount init ∧
  (∀ k q, cache_lookup first.2 k q = None) ∧
  second.1 = Ret (Inherited ["constructor"]) ∧
  trace second.2 = [] ∧
  cacheCount second.2 = cacheCount init ∧
  (∀ k q, cache_lookup second.2 k q = None) ∧
  ∀ l query hash,
    let call := matchUrl l (Matchers.mk "constructor" query hash) o init in
    call.1 = Throw ∧
    trace call.2 = trace (decompose l init).2 ∧
    cacheCount call.2 = cacheCount init ∧
    ∀ k q, cache_lookup call.2 k q = None.
Proof.
  intros first second.
  assert (∀ st, cacheCount st = 0%Z →
            (∀ k q, cache_lookup st k q = None) →
            let run := compilePath "constructor" o st in
            run.1 = Ret (Inherited ["constructor"]) ∧ trace run.2 = trace st ∧
            cacheCount run.2 = 0%Z ∧ ∀ k q, cache_lookup run.2 k q = None) as Hrun.
  { intros st Hcount Hnone.
    pose proof (compilePath_spec "constructor" o st) as Hspec.
    rewrite Hnone in Hspec. change (inherited "constructor") with true in Hspec.
    destruct Hspec as (st' & -> & _ & Hc & _ & Ht & _ & Hk). simpl.
    split; [done|]. split; [congruence|]. split; [congruence|].
    intros k q. by rewrite Hk. }
  assert (∀ k q, cache_lookup init k q = None) as Hinit.
  { intros k q. unfold cache_lookup. simpl. by rewrite lookup_empty. }
  destruct (Hrun init eq_refl Hinit) as (H1 & H2 & H3 & H4).
  destruct (Hrun first.2 H3 H4) as (H5 & H6 & H7 & H8).
  split; [apply Hinit|]. split; [done|]. do 4 (split; [done|]).
  split; [done|]. split; [exact (eq_trans H6 H2)|]. split; [done|]. split; [done|].
  intros l query hash call. subst call.
  set (st0 := (decompose l init).2).
  assert (decompose l init = (Ret (match l with inl s => parsePath s | inr loc => loc end),
                              st0)) as Hdec by by destruct l.
  assert (cacheCount st0 = 0%Z ∧ ∀ k q, cache_lookup st0 k q = None) as [Hc0 Hk0].
  { subst st0. destruct l; simpl; (split; [done|]); intros k q; unfold cache_lookup;
      simpl; by rewrite lookup_empty. }
  assert (∃ st1, matchUrl l (Matchers.mk "constructor" query hash) o init = (Throw, st1) ∧
            trace st1 = trace st0 ∧ cacheCount st1 = 0%Z ∧
            ∀ k q, cache_lookup st1 k q = None) as (st1 & Hcall & Hrest);
    [|rewrite Hcall; split; [done|exact Hrest]].
  unfold matchUrl. unfold bind at 1. rewrite Hdec. unfold bind at 1.
  rewrite matchPath_unfold. simpl Matchers.path.
  destruct (Hrun st0 Hc0 Hk0) as (Hres & Htrace & Hcount & Hk).
  destruct (compilePath "constructor" o st0) as [[[c|b]|] st1]; simpl in *;
    [discriminate| |discriminate].
  by exists st1.
Qed.

(** C6, at an input where the code departs from it. For the pattern
    ["constructor"] two successive calls of [compilePath] return the
    built-in that the bucket inherits, which is no compiled pattern
    and is stored in no bucket; [matchPath] and [matchUrl] then raise,
    as the built-in has no [re]. *)
Theorem inherited_name_is_no_compiled_pattern (o : Options.t A) :
  let first := compilePath "constructor" o init in
  let second := compilePath "constructor" o first.2 in
  first.1 = Ret (Inherited ["constructor"]) ∧
  second.1 = Ret (Inherited ["constructor"]) ∧
  (∀ c, first.1 ≠ Ret (Stored c)) ∧
  (∀ k, cache_lookup second.2 k "constructor" = None) ∧
  (∀ path, (matchPath path "constructor" o init).1 = Throw) ∧
  (∀ l query hash, (matchUrl l (Matchers.mk "constructor" query hash) o init).1 = Throw).
Proof.
  intros first second.
  assert (∀ st, (∀ k q, cache_lookup st k q = None) →
            let run := compilePath "constructor" o st in
            run.1 = Ret (Inherited ["constructor"]) ∧
            ∀ k q, cache_lookup run.2 k q = None) as Hrun.
  { intros st Hnone.
    pose proof (compilePath_spec "constructor" o st) as Hspec.
    rewrite Hnone in Hspec. change (inherited "constructor") with true in Hspec.
    destruct Hspec as (st' & -> & _ & _ & _ & _ & _ & Hk). simpl.
    split; [done|]. intros k q. by rewrite Hk. }
  assert (∀ st, (∀ k q, cache_lookup st k q = None) →
            ∀ path, (matchPath path "constructor" o st).1 = Throw) as Hpath.
  { intros st Hnone path. rewrite matchPath_unfold.
    destruct (Hrun st Hnone) as [H _].
    destruct (compilePath "constructor" o st) as [[[c|b]|] st']; simpl in *;
      by simplify_eq. }
  assert (∀ k q, cache_lookup init k q = None) as Hinit.
  { intros k q. unfold cache_lookup. simpl. by rewrite lookup_empty. }
  destruct (Hrun init Hinit) as [H1 H2]. destruct (Hrun first.2 H2) as [H3 H4].
  split; [done|]. split; [done|]. split; [|split; [|split]].
  - intros c. fold first in H1. rewrite H1. discriminate.
  - intros k. apply H4.
  - by apply Hpath.
  - intros l query hash. unfold matchUrl. unfold bind at 1.
    destruct l as [s|loc]; simpl.
    + unfold bind at 1. simpl. unfold bind at 1.
      rewrite (surjective_pairing (matchPath _ _ _ _)), Hpath; [done|].
      intros k q. unfold cache_lookup. simpl. by rewrite lookup_empty.
    + unfold bind at 1.
      by rewrite (surjective_pairing (matchPath _ _ _ _)), Hpath.
Qed.

Lemma decompose_spec l st :
  ∃ loc st0, decompose l st = (Ret loc, st0) ∧
    queries st0 = queries st ∧ same_patterns st st0 ∧
    (∀ k q, cache_lookup st0 k q = cache_lookup st k q) ∧
    lastIndex st0 = lastIndex st.
Proof. destruct l as [s|loc]; eexists _, _; (split; [reflexivity|done]). Qed.

Lemma compilePath_same_queries pattern o : respects same_queries (compilePath pattern o).
Proof. intros st. by destruct (compilePath_cases pattern o st) as (? & _). Qed.

Lemma matchPath_same_queries path matcher o : respects same_queries (matchPath path matcher o).
Proof.
  apply respects_matchPath; [apply _|done|]. intros. apply compilePath_same_queries.
Qed.

Lemma matchPath_logs path matcher o : respects (logs compile_or_exec) (matchPath path matcher o).
Proof.
  intros st. rewrite matchPath_unfold.
  pose proof (compilePath_spec matcher o st) as Hspec.
  destruct (cache_lookup st (key_of o) matcher) as [c|].
  { rewrite Hspec. simpl. exists [CallExec (oid c) path]. split; [done|].
    by repeat constructor. }
  destruct (inherited matcher).
  { destruct Hspec as (st' & -> & _ & _ & _ & Htrace & _). unfold logs. simpl.
    rewrite Htrace. by exists []. }
  simpl in Hspec. destruct (compiler_output matcher o) as [[r ks]|].
  - destruct Hspec as (st' & -> & _ & _ & Htrace & _). simpl. rewrite Htrace.
    eexists [_; _]. split; [done|]. by repeat constructor.
  - destruct Hspec as (st' & -> & _ & _ & _ & Htrace & _). unfold logs. simpl.
    rewrite Htrace. eexists [_]. split; [done|]. by repeat constructor.
Qed.

Lemma matchUrl_path_failure l m o st loc st0 ks st1 :
  decompose l st = (Ret loc, st0) →
  matchPath (Location.pathname loc) (Matchers.path m) o st0 = (Ret (None, ks), st1) →
  matchUrl l m o st = (Ret None, st1).
Proof.
  intros Hdec Hpath. unfold matchUrl. unfold bind at 1. rewrite Hdec.
  unfold bind at 1. by rewrite Hpath.
Qed.

Lemma path_failure_returns_null l m o st loc st0 ks st1 :
  decompose l st = (Ret loc, st0) →
  matchPath (Location.pathname loc) (Matchers.path m) o st0 = (Ret (None, ks), st1) →
  matchUrl l m o st = (Ret None, st1) ∧ queries st1 = queries st.
Proof.
  intros Hdec Hpath. split; [by eapply matchUrl_path_failure|].
  destruct (decompose_spec l st) as (loc' & st0' & Hdec' & Hq & _).
  rewrite Hdec in Hdec'. injection Hdec' as <- <-.
  pose proof (matchPath_same_queries (Location.pathname loc) (Matchers.path m) o st0) as H.
  rewrite Hpath in H. unfold same_queries in H. simpl in H. congruence.
Qed.

(** C1. When the compiled pattern does not match the path, [matchUrl]
    returns [null] in the very state [matchPath] left: the query cache is
    as before the call, the only calls made after the decomposition of
    the location are those of the compiler and of [exec] (no [qs.parse],
    no predicate, no [test], no [transform]), and the query and hash
    matchers of the descriptor have no influence. *)
Theorem path_failure_fails_fast l m o st loc st0 ks st1 :
  decompose l st = (Ret loc, st0) →
  matchPath (Location.pathname loc) (Matchers.path m) o st0 = (Ret (None, ks), st1) →
  matchUrl l m o st = (Ret None, st1) ∧
  queries st1 = queries st ∧
  logs compile_or_exec st0 st1 ∧
  ∀ query hash,
    matchUrl l (Matchers.mk (Matchers.path m) query hash) o st = (Ret None, st1).
Proof.
  intros Hdec Hpath.
  destruct (path_failure_returns_null l m o st loc st0 ks st1 Hdec Hpath) as [Hnull Hq].
  split; [done|]. split; [done|]. split.
  - pose proof (matchPath_logs (Location.pathname loc) (Matchers.path m) o st0) as H.
    by rewrite Hpath in H.
  - intros query hash. by eapply matchUrl_path_failure.
Qed.

(** ** Value and query matching *)

(** C4. Against a boolean matcher, [matchVal] answers [true] exactly
    when the observed value is neither [undefined] nor the empty string,
    whichever boolean was given, and touches nothing; so [true] against
    [""] fails and [false] against ["x"] passes. *)
Theorem matchVal_boolean_is_presence_test :
  (∀ val b st, ∃ r,
     matchVal val (MBoolean b) st = (Ret r, st) ∧
     (r = true ↔ val ≠ VUndefined ∧ val ≠ VString "")) ∧
  (∀ val st, matchVal val (MBoolean true) st = matchVal val (MBoolean false) st) ∧
  (∀ st, matchVal (VString "") (MBoolean true) st = (Ret false, st)) ∧
  (∀ st, matchVal (VString "x") (MBoolean false) st = (Ret true, st)).
Proof.
  split; [|split; [|split]]; try done.
  intros val b st. eexists. split; [reflexivity|].
  rewrite andb_true_iff, !negb_true_iff, !bool_decide_eq_false. tauto.
Qed.

(** C2, at inputs where the code departs from it. The object that
    [matchQuery] reads is the literal [{}] for an empty or absent
    search: the key [toString] is absent from the parsed query and a
    boolean matcher fails on [undefined], yet the read [query[key]]
    finds the inherited built-in and the matcher passes, so the call
    returns the object and not [null]. For the search ["constructor"]
    the read [queries[search]] finds an inherited built-in: the call
    returns it, without the parser being called and without anything
    being stored. *)
Theorem matchQuery_reads_inherited_properties :
  (∀ st, matchVal VUndefined (MBoolean true) st = (Ret false, st)) ∧
  (∀ st, matchQuery (Some "") (Some [("toString", MBoolean true)]) st
         = (Ret (Some QLiteral), st)) ∧
  (∀ st, matchQuery None (Some [("toString", MBoolean true)]) st
         = (Ret (Some QLiteral), st)) ∧
  matchQuery (Some "constructor") None init
  = (Ret (Some (QInherited ["constructor"])), init).
Proof. done. Qed.

(** ** The orchestrator *)

Lemma bind_unfold {T U} (c : M T) (k : T → M U) st :
  bind c k st = match c st with
                | (Ret v, st') => k v st'
                | (Throw, st') => (Throw, st')
                end.
Proof. reflexivity. Qed.

Lemma ret_unfold {T} (v : T) st : ret v st = (Ret v, st).
Proof. reflexivity. Qed.

(** What a returning call of [matchUrl] went through. *)
Lemma matchUrl_inv l m o st res st' :
  matchUrl l m o st = (Ret res, st') →
  ∃ loc st0 mt ks st1,
    decompose l st = (Ret loc, st0) ∧
    matchPath (Location.pathname loc) (Matchers.path m) o st0 = (Ret (mt, ks), st1) ∧
    match mt with
    | None => res = None ∧ st' = st1
    | Some match_ =>
      ∃ q st2,
        matchQuery (Some (Location.search loc)) (Matchers.query m) st1 = (Ret q, st2) ∧
        match q with
        | None => res = None ∧ st' = st2
        | Some query =>
          ∃ mismatch st3,
            hashMismatch m (Location.hash loc) st2 = (Ret mismatch, st3) ∧
            if mismatch : bool then res = None ∧ st' = st3
            else ∃ params,
              transformed o (tail match_) ks st3 = (Ret params, st') ∧
              res = Some (MatchResult.mk params query (Location.hash loc)
                            (matchedPath_of m (default None (head match_))) m
                            (default false (Options.partial o)))
        end
    end.
Proof.
  intros H. unfold matchUrl in H. unfold bind at 1 in H.
  destruct (decompose l st) as [[loc|] st0] eqn:Hdec; [|discriminate].
  unfold bind at 1 in H.
  destruct (matchPath _ _ _ st0) as [[[mt ks]|] st1] eqn:Hpath; [|discriminate].
  exists loc, st0, mt, ks, st1. split; [done|]. split; [done|].
  destruct mt as [match_|]; [|by unfold ret in H; simplify_eq].
  unfold bind at 1 in H.
  destruct (matchQuery _ _ st1) as [[q|] st2] eqn:Hquery; [|discriminate].
  exists q, st2. split; [done|].
  destruct q as [query|]; [|by unfold ret in H; simplify_eq].
  unfold bind at 1 in H.
  destruct (hashMismatch _ _ st2) as [[mismatch|] st3] eqn:Hhash; [|discriminate].
  exists mismatch, st3. split; [done|].
  destruct mismatch; [by unfold ret in H; simplify_eq|].
  unfold bind at 1 in H.
  destruct (transformed _ _ _ st3) as [[params|] st4] eqn:Hparams; [|discriminate].
  exists params. unfold ret in H. by simplify_eq.
Qed.

(** C3, as the code has it. When the [hash] field of the descriptor is
    truthy and path and query have matched, [matchUrl] runs [matchVal] on
    the fragment and returns [null] when it answers [false]. A [hash]
    field that is falsy ([false], the empty string, [null], [0]) is not
    checked at all: [matchUrl] does what it does for the descriptor
    without the field, state and log included, and returns the same
    result but for the descriptor it carries. *)
Theorem truthy_hash_is_checked :
  (∀ l m o st loc st0 mt ks st1 q st2 expected st3,
     decompose l st = (Ret loc, st0) →
     matchPath (Location.pathname loc) (Matchers.path m) o st0 = (Ret (Some mt, ks), st1) →
     matchQuery (Some (Location.search loc)) (Matchers.query m) st1 = (Ret (Some q), st2) →
     Matchers.hash m = Some expected →
     truthy expected = true →
     matchVal (VString (Location.hash loc)) expected st2 = (Ret false, st3) →
     matchUrl l m o st = (Ret None, st3)) ∧
  (∀ l m o st expected,
     Matchers.hash m = Some expected →
     truthy expected = false →
     matchUrl l m o st
     = (outcome_map (option_map (with_matchers m)) (matchUrl l (without_hash m) o st).1,
        (matchUrl l (without_hash m) o st).2)).
Proof.
  split.
  - intros l m o st loc st0 mt ks st1 q st2 expected st3
      Hdec Hpath Hquery Hhash Htruthy Hval.
    unfold matchUrl. unfold bind at 1. rewrite Hdec.
    unfold bind at 1. rewrite Hpath.
    unfold bind at 1. rewrite Hquery.
    unfold bind at 1. unfold hashMismatch. rewrite Hhash, Htruthy.
    unfold bind at 1. by rewrite Hval.
  - intros l m o st expected Hhash Hfalsy.
    unfold matchUrl. rewrite !bind_unfold.
    destruct (decompose l st) as [[loc|] st0]; [|done]. cbn beta iota.
    change (Matchers.path (without_hash m)) with (Matchers.path m).
    change (Matchers.query (without_hash m)) with (Matchers.query m).
    rewrite !bind_unfold.
    destruct (matchPath _ _ _ st0) as [[[mt ks]|] st1]; [|done]. cbn beta iota.
    destruct mt as [match_|]; [|done].
    rewrite !bind_unfold.
    destruct (matchQuery _ _ st1) as [[q|] st2]; [|done]. cbn beta iota.
    destruct q as [query|]; [|done].
    unfold hashMismatch. rewrite Hhash, Hfalsy.
    change (Matchers.hash (without_hash m)) with (@None ValueMatcher).
    cbn beta iota. rewrite !bind_unfold, !(ret_unfold false). cbn beta iota.
    rewrite !bind_unfold.
    unfold matchedPath_of.
    change (Matchers.path (without_hash m)) with (Matchers.path m).
    destruct (transformed _ _ _ st2) as [[params|] st3]; done.
Qed.

(** C7. For the pattern ["/"], a result of [matchUrl] never has the
    empty string as [matchedPath], and when index 0 of the match is the
    empty string, [matchedPath] is ["/"]. *)
Theorem root_pattern_matchedPath l m o st r st' :
  Matchers.path m = "/" →
  matchUrl l m o st = (Ret (Some r), st') →
  MatchResult.matchedPath r ≠ Some "" ∧
  ∀ loc st0 mt ks st1,
    decompose l st = (Ret loc, st0) →
    matchPath (Location.pathname loc) "/" o st0 = (Ret (Some mt, ks), st1) →
    head mt = Some (Some "") →
    MatchResult.matchedPath r = Some "/".
Proof.
  intros Hroot Hrun.
  apply matchUrl_inv in Hrun as (loc & st0 & mt & ks & st1 & Hdec & Hpath & Hrest).
  destruct mt as [match_|]; [|by destruct Hrest].
  destruct Hrest as (q & st2 & _ & Hrest).
  destruct q as [query|]; [|by destruct Hrest].
  destruct Hrest as (mismatch & st3 & _ & Hrest).
  destruct mismatch; [by destruct Hrest|].
  destruct Hrest as (params & _ & Hr). injection Hr as ->. simpl.
  unfold matchedPath_of. rewrite Hroot in *. split.
  - rewrite bool_decide_eq_true_2 by done. simpl.
    case_bool_decide as Hp; [done|exact Hp].
  - intros loc' st0' mt' ks' st1' Hdec' Hpath' Hhead.
    rewrite Hdec in Hdec'. simplify_eq. rewrite Hpath in Hpath'. simplify_eq.
    rewrite Hhead. simpl. done.
Qed.

(** C10, as the code has it. A call of [matchUrl] that returns [null]
    because the path does not match leaves the query cache as it was;
    when the pattern was not yet cached under the flags of the call, the
    call has run the compiler on it and, while the counter is below the
    ceiling, has stored the compiled pattern and added one to the
    counter. *)
Theorem path_failure_still_caches l m o st loc st0 ks st1 :
  decompose l st = (Ret loc, st0) →
  matchPath (Location.pathname loc) (Matchers.path m) o st0 = (Ret (None, ks), st1) →
  matchUrl l m o st = (Ret None, st1) ∧
  queries st1 = queries st ∧
  (cache_lookup st (key_of o) (Matchers.path m) = None →
     ∃ r, compiler_output (Matchers.path m) o = Some (r, ks) ∧
       trace st1 = CallExec (nextOid st) (Location.pathname loc)
                   :: CallPathToRegexp (Matchers.path m) (negb (flags o).1) (flags o).2
                   :: trace st0 ∧
       ((cacheCount st < cacheLimit)%Z →
          cacheCount st1 = (cacheCount st + 1)%Z ∧
          cache_lookup st1 (key_of o) (Matchers.path m)
          = Some (mkCompiled (nextOid st) r ks))).
Proof.
  intros Hdec Hpath.
  destruct (path_failure_returns_null l m o st loc st0 ks st1 Hdec Hpath) as [Hnull Hq].
  split; [done|]. split; [done|].
  intros Hmiss.
  destruct (decompose_spec l st)
    as (loc' & st0' & Hdec' & _ & (Hpc & Hcount & Hoid) & Hk & _).
  rewrite Hdec in Hdec'. injection Hdec' as <- <-.
  rewrite matchPath_unfold in Hpath.
  pose proof (compilePath_spec (Matchers.path m) o st0) as Hspec.
  rewrite Hk, Hmiss in Hspec.
  destruct (inherited (Matchers.path m)).
  { destruct Hspec as (st' & Hrun & _). rewrite Hrun in Hpath. discriminate. }
  simpl in Hspec.
  destruct (compiler_output (Matchers.path m) o) as [[r ks']|].
  - destruct Hspec as (st' & Hrun & _ & _ & Htrace & _ & Hcase).
    rewrite Hrun in Hpath. injection Hpath as Hexec <- <-. simpl.
    exists r. split; [done|]. split; [by rewrite Htrace, Hoid|].
    intros Hlt. rewrite Hcount in Hcase. apply Z.ltb_lt in Hlt. rewrite Hlt in Hcase.
    destruct Hcase as [Hcount' Hk']. split; [lia|].
    unfold cache_lookup in *. simpl. rewrite Hk'.
    rewrite decide_True; [|done]. by rewrite Hoid.
  - destruct Hspec as (st' & Hrun & _). rewrite Hrun in Hpath. discriminate.
Qed.

(** ** The caches never change what is returned *)

Lemma init_coherent : coherent init.
Proof.
  split.
  - intros s q H. simpl in H. by rewrite lookup_empty in H.
  - intros key pattern c H. unfold cache_lookup in H. simpl in H.
    by rewrite lookup_empty in H.
Qed.

Lemma init_tidy : tidy init.
Proof.
  split; [apply init_coherent|]. split.
  - intros s _. apply lookup_empty.
  - intros key pattern _. unfold cache_lookup. simpl. by rewrite lookup_empty.
Qed.

Lemma coherent_lookups st st' :
  queries st' = queries st →
  (∀ k q, cache_lookup st' k q = cache_lookup st k q) →
  coherent st → coherent st'.
Proof.
  intros Hq Hp [H1 H2]. split.
  - intros s q. rewrite Hq. apply H1.
  - intros key pattern c. rewrite Hp. apply H2.
Qed.

Lemma coherent_same st st' :
  queries st' = queries st → patternCache st' = patternCache st →
  coherent st → coherent st'.
Proof.
  intros Hq Hp. apply coherent_lookups; [done|].
  intros k q. unfold cache_lookup. by rewrite Hp.
Qed.

Lemma tidy_lookups st st' :
  queries st' = queries st →
  (∀ k q, cache_lookup st' k q = cache_lookup st k q) →
  tidy st → tidy st'.
Proof.
  intros Hq Hp (Hco & H1 & H2). split; [by eapply coherent_lookups|]. split.
  - intros s. rewrite Hq. apply H1.
  - intros key pattern. rewrite Hp. apply H2.
Qed.

Lemma tidy_same st st' :
  queries st' = queries st → patternCache st' = patternCache st →
  tidy st → tidy st'.
Proof.
  intros Hq Hp. apply tidy_lookups; [done|].
  intros k q. unfold cache_lookup. by rewrite Hp.
Qed.

Lemma compilePath_coherent pattern o st :
  coherent st → coherent (compilePath pattern o st).2.
Proof.
  intros Hco.
  destruct (compilePath_cases pattern o st)
    as (Hq & _ & [[_ Hk]|(_ & _ & _ & _ & c & _ & Hout & _ & Hk)]).
  - by eapply coherent_lookups.
  - destruct Hco as [Hqs Hp]. split.
    + intros s q. rewrite Hq. apply Hqs.
    + intros key pattern' c'. rewrite Hk. case_decide as Heq; [|apply Hp].
      destruct Heq as [-> ->]. intros [= <-]. by eexists _, _.
Qed.

Lemma compilePath_tidy pattern o st : tidy st → tidy (compilePath pattern o st).2.
Proof.
  intros (Hco & H1 & H2). split; [by apply compilePath_coherent|].
  destruct (compilePath_cases pattern o st)
    as (Hq & _ & [[_ Hk]|(_ & Hinh & _ & _ & c & _ & _ & _ & Hk)]).
  - split.
    + intros s. rewrite Hq. apply H1.
    + intros key pattern'. rewrite Hk. apply H2.
  - split.
    + intros s. rewrite Hq. apply H1.
    + intros key pattern' Hinh'. rewrite Hk. case_decide as Heq; [|by apply H2].
      destruct Heq as [-> ->]. congruence.
Qed.

(** In a tidy state [matchPath] raises for a pattern that names an
    inherited property, and else returns what the compiler's output for
    the pattern gives on the path, cached or not. *)
Lemma matchPath_tidy path matcher o st :
  tidy st →
  (matchPath path matcher o st).1
  = (if inherited matcher then Throw
     else match compiler_output matcher o with
          | Some (r, ks) => Ret (exec r path, ks)
          | None => Throw
          end) ∧
  tidy (matchPath path matcher o st).2 ∧
  lastIndex (matchPath path matcher o st).2 = lastIndex st.
Proof.
  intros Hti.
  pose proof (compilePath_tidy matcher o st Hti) as Hti'.
  destruct (compilePath_cases matcher o st) as (_ & Hli & _).
  rewrite matchPath_unfold.
  pose proof (compilePath_spec matcher o st) as Hspec.
  destruct (cache_lookup st (key_of o) matcher) as [c|] eqn:Hlook.
  - rewrite Hspec in *. simpl. split; [|split; [by eapply tidy_same|done]].
    destruct Hti as ([_ Hp] & _ & Hnone).
    destruct (inherited matcher) eqn:Hinh.
    { rewrite Hnone in Hlook; [discriminate|done]. }
    apply Hp in Hlook as (partial & strict & Hkey & Hout).
    apply cacheKey_inj in Hkey as [<- <-]. unfold compiler_output. by rewrite Hout.
  - destruct (inherited matcher).
    { destruct Hspec as (st' & Hrun & _). rewrite Hrun in *. done. }
    simpl in Hspec. destruct (compiler_output matcher o) as [[r ks]|] eqn:Hout.
    + destruct Hspec as (st' & Hrun & _). rewrite Hrun in *. simpl.
      split; [done|]. split; [by eapply tidy_same|done].
    + destruct Hspec as (st' & Hrun & _). rewrite Hrun in *. done.
Qed.

(** In a tidy state [parseSearch] returns the built-in for a search
    that names an inherited property, and else what [qs.parse] makes of
    the search, cached or not. *)
Lemma parseSearch_tidy search st :
  tidy st →
  ∃ st', parseSearch search st
         = (Ret (if inherited search then QInherited [search]
                 else QParsed (qs_parse search)), st') ∧
    tidy st' ∧ same_patterns st st' ∧ lastIndex st' = lastIndex st.
Proof.
  intros Hti. pose proof Hti as (Hco & H1 & H2). unfold parseSearch. run.
  destruct (queries st !! search) as [q|] eqn:Hlook.
  - exists st. destruct (inherited search) eqn:Hinh.
    { rewrite H1 in Hlook; [discriminate|done]. }
    destruct Hco as [Hq _]. apply Hq in Hlook as ->. done.
  - destruct (inherited search) eqn:Hinh.
    { exists st. done. }
    eexists. split; [reflexivity|]. split; [|done].
    destruct Hco as [Hq Hp]. split; [split|split]; simpl.
    + intros s q Hs. apply lookup_insert_Some in Hs as [[<- <-]|[_ Hs]]; eauto.
    + exact Hp.
    + intros s Hs. rewrite lookup_insert_ne; [by apply H1|]. intros ->. congruence.
    + exact H2.
Qed.

(** *** Two runs side by side *)

Lemma simulates_ret {T} Rel (v : T) : simulates Rel (ret v).
Proof. intros st1 st2 H. done. Qed.

Lemma simulates_throw {T} Rel : simulates Rel (@throw T).
Proof. intros st1 st2 H. done. Qed.

Lemma simulates_bind {T U} Rel (c : M T) (k : T → M U) :
  simulates Rel c → (∀ v, simulates Rel (k v)) → simulates Rel (bind c k).
Proof.
  intros Hc Hk st1 st2 H. unfold bind.
  destruct (Hc st1 st2 H) as [Hv Hrel].
  destruct (c st1) as [[v1|] s1], (c st2) as [[v2|] s2]; simpl in *;
    try discriminate; [|done].
  injection Hv as ->. by apply Hk.
Qed.

Create HintDb simulates.

Ltac simulates_step :=
  first
    [ solve [auto with simulates]
    | apply simulates_ret
    | apply simulates_throw
    | apply simulates_bind; [|intros]
    | match goal with
      | |- simulates _ (match ?x with _ => _ end) => destruct x
      | |- simulates _ (let '(_, _) := ?x in _) => destruct x
      | |- simulates _ (if ?b then _ else _) => destruct b
      end ].

(** What holds of two runs of [matchUrl] as soon as it holds of two
    runs of logging, of [matchPath], of [parseSearch], and of [test] on
    the patterns that satisfy [P]. *)
Section Simulates.
Context (Rel : relation State) (P : Pattern → Prop).
Hypothesis S_emit : ∀ e, simulates Rel (emit e).
Hypothesis S_test : ∀ r s, P r → simulates Rel (test r s).
Hypothesis S_matchPath : ∀ path matcher o, simulates Rel (matchPath path matcher o).
Hypothesis S_parseSearch : ∀ search, simulates Rel (parseSearch search).

#[local] Hint Resolve S_emit S_matchPath S_parseSearch : simulates.

Lemma simulates_matchVal val expected :
  Forall P (pattern_of expected) → simulates Rel (matchVal val expected).
Proof.
  intros HP. destruct expected; simpl; repeat simulates_step.
  apply S_test. by apply Forall_inv in HP.
Qed.

Lemma simulates_matchQuery_loop query entries :
  Forall P (entries ≫= λ entry, pattern_of entry.2) →
  simulates Rel (matchQuery_loop query entries).
Proof.
  induction entries as [|[key expected] rest IH]; simpl; intros HP;
    [apply simulates_ret|].
  apply Forall_app in HP as [HP1 HP2].
  apply simulates_bind; [by apply simulates_matchVal|].
  intros ok. destruct ok; simpl; [by apply IH|apply simulates_ret].
Qed.

Lemma simulates_matchQuery search matcher :
  Forall P (from_option (λ entries, entries ≫= λ entry, pattern_of entry.2) [] matcher) →
  simulates Rel (matchQuery search matcher).
Proof.
  intros HP. unfold matchQuery. apply simulates_bind; [repeat simulates_step|].
  intros query. destruct matcher as [entries|]; [|apply simulates_ret].
  by apply simulates_matchQuery_loop.
Qed.

Lemma simulates_reduce_params f values ks index (params : Params.t A) :
  simulates Rel (reduce_params f values ks index params).
Proof.
  revert index params. induction ks as [|key rest IH]; intros; simpl;
    repeat simulates_step.
Qed.

Lemma simulates_hashMismatch m hash :
  Forall P (from_option pattern_of [] (Matchers.hash m)) →
  simulates Rel (hashMismatch m hash).
Proof.
  intros HP. unfold hashMismatch.
  destruct (Matchers.hash m) as [expected|]; [|apply simulates_ret].
  destruct (truthy expected); [|apply simulates_ret].
  apply simulates_bind; [by apply simulates_matchVal|]. intros. apply simulates_ret.
Qed.

#[local] Hint Resolve simulates_reduce_params : simulates.

Lemma simulates_matchUrl l m o :
  Forall P (matcher_patterns m) → simulates Rel (matchUrl l m o).
Proof.
  intros HP. apply Forall_app in HP as [HP1 HP2].
  pose proof (simulates_hashMismatch m) as Hhash.
  pose proof (simulates_matchQuery) as Hquery.
  unfold matchUrl, decompose, transformed. repeat simulates_step.
Qed.

End Simulates.

Lemma tidy_agree_emit D e : simulates (tidy_agree D) (emit e).
Proof.
  intros st1 st2 (H1 & H2 & Hli). split; [done|].
  split; [by eapply tidy_same|]. split; [by eapply tidy_same|done].
Qed.

Lemma tidy_agree_test D r s :
  (advancing r = true → D (pid r)) → simulates (tidy_agree D) (test r s).
Proof.
  intros HD st1 st2 (H1 & H2 & Hli). unfold test.
  destruct (advancing r) eqn:Hadv; [|done].
  specialize (HD eq_refl). run. rewrite (Hli _ HD).
  destruct (exec_at r _ s) as [[mt e]|]; simpl.
  - split; [done|]. split; [by eapply tidy_same|]. split; [by eapply tidy_same|].
    simpl. intros n Hn. destruct (decide (n = pid r)) as [->|Hne].
    + by rewrite !lookup_insert_eq.
    + rewrite !lookup_insert_ne by done. by apply Hli.
  - split; [done|]. split; [by eapply tidy_same|]. split; [by eapply tidy_same|].
    simpl. intros n Hn. destruct (decide (n = pid r)) as [->|Hne].
    + by rewrite !lookup_insert_eq.
    + rewrite !lookup_insert_ne by done. by apply Hli.
Qed.

Lemma tidy_agree_matchPath D path matcher o :
  simulates (tidy_agree D) (matchPath path matcher o).
Proof.
  intros st1 st2 (H1 & H2 & Hli).
  destruct (matchPath_tidy path matcher o st1 H1) as (-> & Ht1 & Hl1).
  destruct (matchPath_tidy path matcher o st2 H2) as (-> & Ht2 & Hl2).
  split; [done|]. split; [done|]. split; [done|]. by rewrite Hl1, Hl2.
Qed.

Lemma tidy_agree_parseSearch D search : simulates (tidy_agree D) (parseSearch search).
Proof.
  intros st1 st2 (H1 & H2 & Hli).
  destruct (parseSearch_tidy search st1 H1) as (st1' & -> & Ht1 & _ & Hl1).
  destruct (parseSearch_tidy search st2 H2) as (st2' & -> & Ht2 & _ & Hl2).
  split; [done|]. split; [done|]. split; [done|]. simpl. by rewrite Hl1, Hl2.
Qed.

(** Two runs of [matchUrl] from tidy states that agree on the
    [lastIndex] of the patterns of the descriptor. *)
Lemma tidy_agree_matchUrl D l m o :
  (∀ r, r ∈ matcher_patterns m → advancing r = true → D (pid r)) →
  simulates (tidy_agree D) (matchUrl l m o).
Proof.
  intros HD.
  apply (simulates_matchUrl _ (λ r, advancing r = true → D (pid r))).
  - apply tidy_agree_emit.
  - apply tidy_agree_test.
  - apply tidy_agree_matchPath.
  - apply tidy_agree_parseSearch.
  - by apply Forall_forall.
Qed.

Lemma matchUrl_tidy l m o st : tidy st → tidy (matchUrl l m o st).2.
Proof.
  intros Hti.
  destruct (tidy_agree_matchUrl (λ _, True) l m o) with (st1 := st) (st2 := st)
    as (_ & H & _); done.
Qed.

Lemma reachable_tidy st : reachable (A := A) st → tidy st.
Proof.
  unfold reachable, steps. revert st.
  apply rtc_ind_r; [apply init_tidy|].
  intros st st' _ Hstep IH. destruct Hstep as [st l m o|st li].
  - by apply matchUrl_tidy.
  - by eapply tidy_same.
Qed.

Lemma reachable_coherent st : reachable (A := A) st → coherent st.
Proof. intros H. by apply reachable_tidy in H as [? _]. Qed.

(** C9, as the code has it. Whatever states the module has reached,
    [matchUrl] returns the same outcome for the same arguments as soon
    as the patterns among the matchers that carry the [g] or [y] flag
    have the same [lastIndex] in both: the caches and the counter do not
    bear on the value returned, the [lastIndex] of such a pattern does.
    When no pattern of the descriptor carries such a flag, a call
    repeated right away returns what the first call returned. *)
Theorem matchUrl_result_independent_of_caches l m o st1 st2 :
  reachable (A := A) st1 → reachable (A := A) st2 →
  (∀ r, r ∈ matcher_patterns m → advancing r = true →
     default 0 (lastIndex st1 !! pid r) = default 0 (lastIndex st2 !! pid r)) →
  (matchUrl l m o st1).1 = (matchUrl l m o st2).1 ∧
  (stateless m →
     (matchUrl l m o (matchUrl l m o st1).2).1 = (matchUrl l m o st1).1).
Proof.
  intros H1 H2 Hli. apply reachable_tidy in H1, H2. split.
  - apply (tidy_agree_matchUrl (advancing_ids m) l m o).
    + intros r Hin Hadv. by exists r.
    + split; [done|]. split; [done|].
      intros n (r & Hin & Hadv & <-). by apply Hli.
  - intros Hstateless.
    apply (tidy_agree_matchUrl (λ _, False) l m o).
    + intros r Hin Hadv. unfold stateless in Hstateless.
      rewrite Forall_forall in Hstateless. apply Hstateless in Hin. congruence.
    + split; [by apply matchUrl_tidy|]. split; [done|]. by intros n [].
Qed.

(** * Further properties of the caches *)

(** The three ways a call of [parseSearch] can go. *)
Lemma parseSearch_cases search st :
  ∃ q st1, parseSearch search st = (Ret q, st1) ∧
    parseSearch search st1 = (Ret q, st1) ∧
    ((∃ p, queries st !! search = Some p ∧ q = QParsed p ∧ st1 = st) ∨
     (queries st !! search = None ∧ inherited search = true ∧
      q = QInherited [search] ∧ st1 = st) ∨
     (queries st !! search = None ∧ inherited search = false ∧
      q = QParsed (qs_parse search) ∧
      trace st1 = CallQsParse search :: trace st ∧
      queries st1 = <[search := qs_parse search]> (queries st) ∧
      same_patterns st st1 ∧ lastIndex st1 = lastIndex st)).
Proof.
  unfold parseSearch. run.
  destruct (queries st !! search) as [p|] eqn:Hlook.
  - exists (QParsed p), st. rewrite Hlook. split; [done|]. split; [done|].
    left. by exists p.
  - destruct (inherited search) eqn:Hinh.
    + exists (QInherited [search]), st. rewrite Hlook. split; [done|]. split; [done|].
      right. by left.
    + eexists _, _. split; [reflexivity|]. simpl. rewrite lookup_insert_eq.
      split; [done|]. right. right. done.
Qed.

(** X1. What [parseSearch] returns, it returns again at a second call,
    which changes nothing. A parse that the query cache holds is
    returned as it is; for a search that names an inherited property
    and has no parse in the cache, the built-in is returned, [qs.parse]
    is not called and nothing is stored; in every other case [qs.parse]
    is called once and its result is stored under the search string. *)
Theorem parseSearch_twice search st :
  let first := parseSearch search st in
  parseSearch search first.2 = first ∧
  match queries st !! search with
  | Some p => first = (Ret (QParsed p), st)
  | None =>
    if inherited search then first = (Ret (QInherited [search]), st)
    else first.1 = Ret (QParsed (qs_parse search)) ∧
         trace first.2 = CallQsParse search :: trace st ∧
         queries first.2 = <[search := qs_parse search]> (queries st) ∧
         same_patterns st first.2 ∧ lastIndex first.2 = lastIndex st
  end.
Proof.
  intros first. subst first.
  destruct (parseSearch_cases search st) as (q & st1 & -> & Htwice & Hcases).
  split; [exact Htwice|]. simpl.
  destruct Hcases as [(p & -> & -> & ->)|[(-> & -> & -> & ->)|(-> & -> & -> & Hrest)]];
    done.
Qed.

Lemma parseSearch_queries_retained search : respects queries_retained (parseSearch search).
Proof.
  intros st s q Hs. unfold parseSearch. run.
  destruct (queries st !! search) as [q0|] eqn:Hlook; simpl; [done|].
  destruct (inherited search); simpl; [done|].
  rewrite lookup_insert_ne; [done|]. intros ->. congruence.
Qed.

Lemma parseSearch_same_patterns search : respects same_patterns (parseSearch search).
Proof.
  intros st. unfold parseSearch. run.
  destruct (queries st !! search); simpl; [done|]. by destruct (inherited search).
Qed.

#[local] Instance queries_retained_preorder : PreOrder queries_retained.
Proof.
  split; [by intros st s q|].
  intros st1 st2 st3 H1 H2 s q Hs. by apply H2, H1.
Qed.

Lemma same_queries_retained st st' : same_queries st st' → queries_retained st st'.
Proof. intros Hq s q. unfold same_queries in Hq. by rewrite Hq. Qed.

Lemma matchUrl_queries_retained l m o : respects queries_retained (matchUrl l m o).
Proof.
  apply respects_call_matchUrl; [apply _| | | |].
  - intros e st. by apply same_queries_retained.
  - intros li st. by apply same_queries_retained.
  - intros st. apply same_queries_retained, compilePath_same_queries.
  - apply parseSearch_queries_retained.
Qed.

(** X2. The query cache only grows: through any sequence of calls of
    [matchUrl] an entry, once stored, stays with the same mapping. *)
Theorem query_cache_only_grows st st' s q :
  steps (A := A) st st' →
  queries st !! s = Some q →
  queries st' !! s = Some q.
Proof.
  intros Hsteps. revert s q. change (queries_retained st st').
  induction Hsteps as [st|st1 st2 st3 Hstep _ IH]; [reflexivity|].
  etrans; [|exact IH]. destruct Hstep.
  - apply matchUrl_queries_retained.
  - by apply same_queries_retained.
Qed.

(** X3. A pattern that is cached stays served from the cache through
    every later call of [matchUrl]: [compilePath] returns the very object
    stored, does not call the compiler and changes nothing, also once
    the counter is at the ceiling. *)
Theorem cached_pattern_served_forever pattern o st st' c :
  steps (A := A) st st' →
  cache_lookup st (key_of o) pattern = Some c →
  compilePath pattern o st' = (Ret (Stored c), st').
Proof.
  intros Hsteps Hc.
  apply steps_cache_evolves in Hsteps as (_ & Hkeep & _).
  apply Hkeep in Hc.
  pose proof (compilePath_spec pattern o st') as Hspec.
  by rewrite Hc in Hspec.
Qed.

(** X4. In every state the module can reach, each cached query is what
    [qs.parse] gives for its key, and each compiled pattern found under
    the flags of a call is what the compiler gives for that pattern with
    [end = !partial] and the given [strict]. *)
Theorem caches_hold_what_the_capabilities_compute st :
  reachable (A := A) st →
  (∀ s q, queries st !! s = Some q → q = qs_parse s) ∧
  (∀ pattern (o : Options.t A) c,
     cache_lookup st (key_of o) pattern = Some c →
     pathToRegexp pattern (negb (default false (Options.partial o)))
                  (default false (Options.strict o)) = Some (re c, keys c)).
Proof.
  intros Hreach. apply reachable_coherent in Hreach as [Hq Hp].
  split; [exact Hq|].
  intros pattern o c Hc. apply Hp in Hc as (partial & strict & Hkey & Hout).
  apply cacheKey_inj in Hkey as [<- <-]. exact Hout.
Qed.

(** ** What the counter counts *)

Lemma total_entries_insert st key (v : gmap string Compiled) q n oid' t li :
  total_entries (mkState q (<[key := v]> (patternCache st)) n oid' t li)
    + size (default ∅ (patternCache st !! key))
  = total_entries st + size v.
Proof.
  unfold total_entries. simpl.
  set (f := λ (_ : string) (cache : gmap string Compiled) (k : nat), size cache + k).
  assert (∀ (j1 j2 : string) (z1 z2 : gmap string Compiled) (y : nat),
            f j1 z1 (f j2 z2 y) = f j2 z2 (f j1 z1 y)) as Hcomm.
  { intros. unfold f. lia. }
  destruct (patternCache st !! key) as [old|] eqn:Hold; simpl.
  - rewrite <- insert_delete_eq.
    rewrite (map_fold_insert_L f); [|by intros; apply Hcomm|by apply lookup_delete_eq].
    rewrite (map_fold_delete_L f 0 key old (patternCache st)); [|by intros; apply Hcomm|done].
    unfold f. lia.
  - rewrite (map_fold_insert_L f); [|by intros; apply Hcomm|done].
    rewrite map_size_empty. unfold f. lia.
Qed.

(** The pattern cache after a call of [compilePath]: the bucket of the
    call exists, with at most one entry more. *)
Lemma compilePath_patternCache pattern o st :
  let st' := (compilePath pattern o st).2 in
  let cache := default ∅ (patternCache st !! key_of o) in
  (patternCache st' = <[key_of o := cache]> (patternCache st) ∧
   cacheCount st' = cacheCount st) ∨
  (cache !! pattern = None ∧
   ∃ c, patternCache st' = <[key_of o := <[pattern := c]> cache]> (patternCache st) ∧
     cacheCount st' = (cacheCount st + 1)%Z).
Proof.
  unfold key_of, flags; simpl.
  set (partial := default false (Options.partial o)).
  set (strict := default false (Options.strict o)).
  unfold compilePath, bucket, bucket_store, cache_get. fold partial strict.
  set (key := cacheKey partial strict). run.
  destruct (patternCache st !! key) as [cache|] eqn:Hb; simpl.
  - destruct (cache !! pattern) as [c|] eqn:Hc; simpl.
    { left. split; [|done]. by rewrite insert_id. }
    destruct (inherited pattern); simpl.
    { left. split; [|done]. by rewrite insert_id. }
    destruct (pathToRegexp pattern (negb partial) strict) as [[r ks]|]; simpl.
    + destruct (cacheCount st <? cacheLimit)%Z; simpl.
      * right. split; [done|]. eexists. rewrite Hb. simpl. done.
      * left. split; [|done]. by rewrite insert_id.
    + left. split; [|done]. by rewrite insert_id.
  - rewrite lookup_empty.
    destruct (inherited pattern); simpl; [by left|].
    destruct (pathToRegexp pattern (negb partial) strict) as [[r ks]|]; simpl.
    + destruct (cacheCount st <? cacheLimit)%Z; simpl.
      * right. split; [done|]. eexists.
        rewrite lookup_insert_eq. simpl. by rewrite insert_insert_eq.
      * by left.
    + by left.
Qed.

#[local] Instance same_surplus_preorder : PreOrder same_surplus.
Proof.
  split; [done|]. intros st1 st2 st3 H1 H2. unfold same_surplus in *. lia.
Qed.

Lemma same_patterns_same_surplus st st' : same_patterns st st' → same_surplus st st'.
Proof.
  intros (Hpc & Hcount & _). unfold same_surplus, total_entries. by rewrite Hpc, Hcount.
Qed.

Lemma compilePath_same_surplus pattern o : respects same_surplus (compilePath pattern o).
Proof.
  intros st. unfold same_surplus.
  destruct (compilePath pattern o st) as [res st'] eqn:Hrun. simpl.
  pose proof (compilePath_patternCache pattern o st) as Hpc.
  rewrite Hrun in Hpc. simpl in Hpc.
  destruct st' as [q' pc' n' oid' t' li']. simpl in *.
  destruct Hpc as [[-> ->]|(Hnone & c & -> & ->)].
  - pose proof (total_entries_insert st (key_of o)
                  (default ∅ (patternCache st !! key_of o)) q' (cacheCount st) oid' t' li').
    lia.
  - pose proof (total_entries_insert st (key_of o)
                  (<[pattern := c]> (default ∅ (patternCache st !! key_of o)))
                  q' (cacheCount st + 1)%Z oid' t' li') as H.
    rewrite map_size_insert_None in H; [|done]. lia.
Qed.

Lemma key_of_bucket_keys o : key_of o ∈ bucket_keys.
Proof.
  unfold key_of, flags, bucket_keys, cacheKey. simpl.
  destruct (default false (Options.partial o)), (default false (Options.strict o));
    simpl; set_solver.
Qed.

Lemma compilePath_four_buckets pattern o st :
  four_buckets st → four_buckets (compilePath pattern o st).2.
Proof.
  intros Hfour k Hk.
  destruct (compilePath_patternCache pattern o st) as [[Hpc _]|(_ & c & Hpc & _)];
    rewrite Hpc in Hk;
    (destruct (decide (k = key_of o)) as [->|Hne];
       [apply key_of_bucket_keys|rewrite lookup_insert_ne in Hk; [by apply Hfour|done]]).
Qed.

Lemma matchUrl_surplus_and_buckets l m o st :
  same_surplus st (matchUrl l m o st).2 ∧
  (four_buckets st → four_buckets (matchUrl l m o st).2).
Proof.
  split.
  - apply respects_matchUrl; [apply _| | | |].
    + intros e st0. by apply same_patterns_same_surplus.
    + intros li st0. by apply same_patterns_same_surplus.
    + intros q st0. by apply same_patterns_same_surplus.
    + apply compilePath_same_surplus.
  - revert st.
    change (respects (λ st st', four_buckets st → four_buckets st') (matchUrl l m o)).
    apply respects_matchUrl.
    + split; [by intros st|]. intros st1 st2 st3 H1 H2 H. by apply H2, H1.
    + by intros e st0.
    + by intros li st0.
    + by intros q st0.
    + intros pattern o' st0. apply compilePath_four_buckets.
Qed.

(** X5. In every state the module can reach, the counter is the number
    of compiled patterns held in the cache, all buckets together, so the
    cache never holds more than [cacheLimit] patterns; and the buckets
    are named by the four flag combinations only. *)
Theorem counter_counts_cached_patterns st :
  reachable (A := A) st →
  cacheCount st = Z.of_nat (total_entries st) ∧
  (Z.of_nat (total_entries st) ≤ cacheLimit)%Z ∧
  ∀ k, is_Some (patternCache st !! k) → k ∈ bucket_keys.
Proof.
  intros Hreach.
  assert (cacheCount st = Z.of_nat (total_entries st) ∧ four_buckets st) as [Hcount Hfour].
  { unfold reachable, steps in Hreach. revert st Hreach. apply rtc_ind_r.
    - split; [done|]. intros k [c Hk]. simpl in Hk. by rewrite lookup_empty in Hk.
    - intros st st' _ Hstep [Hcount Hfour]. destruct Hstep as [st l m o|st li].
      + destruct (matchUrl_surplus_and_buckets l m o st) as [Hs Hb].
        split; [|by apply Hb]. unfold same_surplus in Hs. lia.
      + done. }
  split; [done|]. split; [|done].
  rewrite <- Hcount.
  apply steps_cache_evolves in Hreach as (Hb & _ & _).
  apply Hb. simpl. unfold cacheLimit. lia.
Qed.

(** ** What a call leaves alone *)

Lemma compilePath_other_entries pattern o st k q :
  k ≠ key_of o ∨ q ≠ pattern →
  cache_lookup (compilePath pattern o st).2 k q = cache_lookup st k q.
Proof.
  intros Hother.
  destruct (compilePath_cases pattern o st)
    as (_ & _ & [[_ Hk]|(_ & _ & _ & _ & c & _ & _ & _ & Hk)]); [done|].
  rewrite Hk. rewrite decide_False; [done|]. intros [-> ->]. by destruct Hother.
Qed.

(** X6. A call of [matchUrl] leaves every entry of the pattern cache as
    it is, except possibly the one for its own pattern under its own
    flags: other patterns and other flag combinations are not touched. *)
Theorem matchUrl_touches_one_entry l m o st k q :
  k ≠ key_of o ∨ q ≠ Matchers.path m →
  cache_lookup (matchUrl l m o st).2 k q = cache_lookup st k q.
Proof.
  intros Hother. revert st.
  change (respects (λ st st', cache_lookup st' k q = cache_lookup st k q)
                   (matchUrl l m o)).
  apply respects_call_matchUrl.
  - split; [by intros st|]. intros st1 st2 st3 H1 H2. congruence.
  - by intros e st.
  - by intros li st.
  - intros st. by apply compilePath_other_entries.
  - intros search st.
    destruct (parseSearch_same_patterns search st) as (Hpc & _).
    unfold cache_lookup. by rewrite Hpc.
Qed.

(** X7. When the compiler rejects the pattern, [matchUrl] raises: the
    exception is not caught. The compiler has been called, unless the
    pattern names an inherited property, and neither the query cache
    nor the counter nor any cached pattern has changed, so the same call
    raises again in the state it leaves. *)
Theorem rejected_pattern_raises l m o st :
  coherent st →
  compiler_output (Matchers.path m) o = None →
  ∃ st', matchUrl l m o st = (Throw, st') ∧
    queries st' = queries st ∧ cacheCount st' = cacheCount st ∧
    (∀ k q, cache_lookup st' k q = cache_lookup st k q) ∧
    trace st' = ((if inherited (Matchers.path m) then []
                  else [CallPathToRegexp (Matchers.path m) (negb (flags o).1) (flags o).2])
                 ++ trace (decompose l st).2)%list ∧
    (matchUrl l m o st').1 = Throw.
Proof.
  intros Hco Hout.
  assert (∀ st, coherent st →
            ∃ st', matchUrl l m o st = (Throw, st') ∧
              queries st' = queries st ∧ cacheCount st' = cacheCount st ∧
              (∀ k q, cache_lookup st' k q = cache_lookup st k q) ∧
              trace st' = ((if inherited (Matchers.path m) then []
                            else [CallPathToRegexp (Matchers.path m) (negb (flags o).1)
                                                   (flags o).2])
                           ++ trace (decompose l st).2)%list) as Hraise.
  { clear st Hco. intros st Hco.
    destruct (decompose_spec l st)
      as (loc & st0 & Hdec & Hq0 & (Hpc0 & Hcount0 & _) & Hk0 & _).
    pose proof (compilePath_spec (Matchers.path m) o st0) as Hspec.
    destruct (cache_lookup st0 (key_of o) (Matchers.path m)) as [c|] eqn:Hlook.
    { rewrite Hk0 in Hlook. destruct Hco as [_ Hp].
      apply Hp in Hlook as (partial & strict & Hkey & Hsome).
      apply cacheKey_inj in Hkey as [<- <-]. unfold compiler_output in Hout. congruence. }
    assert (∃ st', compilePath (Matchers.path m) o st0
                   = ((if inherited (Matchers.path m)
                       then Ret (Inherited [Matchers.path m]) else Throw), st') ∧
              queries st' = queries st0 ∧ cacheCount st' = cacheCount st0 ∧
              trace st' = ((if inherited (Matchers.path m) then []
                            else [CallPathToRegexp (Matchers.path m) (negb (flags o).1)
                                                   (flags o).2]) ++ trace st0)%list ∧
              ∀ k q, cache_lookup st' k q = cache_lookup st0 k q)
      as (st' & Hrun & Hq & Hcount & Htrace & Hk).
    { destruct (inherited (Matchers.path m)).
      - destruct Hspec as (st' & Hrun & Hq & Hcount & _ & Htrace & _ & Hk). by exists st'.
      - simpl in Hspec. rewrite Hout in Hspec.
        destruct Hspec as (st' & Hrun & Hq & Hcount & _ & Htrace & _ & Hk). by exists st'. }
    exists st'. split.
    - unfold matchUrl. unfold bind at 1. rewrite Hdec.
      unfold bind at 1. rewrite matchPath_unfold, Hrun.
      by destruct (inherited (Matchers.path m)).
    - rewrite Hdec. simpl. split; [congruence|]. split; [congruence|].
      split; [|done]. intros k q. by rewrite Hk, Hk0. }
  destruct (Hraise st Hco) as (st' & Hrun & Hq & Hcount & Hk & Htrace).
  exists st'. repeat (split; [done|]).
  assert (coherent st') as Hco' by by eapply coherent_lookups.
  destruct (Hraise st' Hco') as (st'' & -> & _). done.
Qed.

(** ** What each part of [matchUrl] returns and logs *)

Local Open Scope list_scope.

Lemma logs_mono (P Q : event → Prop) st st' :
  (∀ e, P e → Q e) → logs P st st' → logs Q st st'.
Proof.
  intros HPQ (evs & Htrace & HP). exists evs. split; [done|].
  eapply Forall_impl; [exact HP|exact HPQ].
Qed.

Lemma matcher_call_not_transform e : matcher_call e → not_transform e.
Proof. by destruct e. Qed.

Lemma compile_or_exec_not_transform e : compile_or_exec e → not_transform e.
Proof. by destruct e. Qed.

Lemma matcher_call_no_compile_no_parse e : matcher_call e → no_compile_no_parse e.
Proof. by destruct e. Qed.

(** [matchVal] always returns, and touches the [lastIndex] of the
    patterns at most. *)
Lemma matchVal_returns val expected st :
  ∃ b st', matchVal val expected st = (Ret b, st') ∧
    queries st' = queries st ∧ same_patterns st st' ∧ logs matcher_call st st'.
Proof.
  destruct expected as [b|s|f|r| |n]; simpl.
  1,2,5,6: eexists _, st; split; [reflexivity|]; split; [done|]; split; [done|];
    by exists [].
  - eexists _, _. split; [reflexivity|]. simpl. split; [done|]. split; [done|].
    exists [CallPredicate val]. split; [done|]. by repeat constructor.
  - unfold test. destruct (advancing r); run.
    + destruct (exec_at r _ _) as [[mt e]|]; simpl;
        (eexists _, _; split; [reflexivity|]; simpl; split; [done|]; split; [done|];
         exists [CallTest (ToString val)]; split; [done|]; by repeat constructor).
    + eexists _, _. split; [reflexivity|]. simpl. split; [done|]. split; [done|].
      exists [CallTest (ToString val)]. split; [done|]. by repeat constructor.
Qed.


Lemma matchQuery_loop_returns query entries st :
  ∃ res st', matchQuery_loop query entries st = (Ret res, st') ∧
    (res = None ∨ res = Some query) ∧
    queries st' = queries st ∧ same_patterns st st' ∧ logs matcher_call st st'.
Proof.
  revert st. induction entries as [|[key expected] rest IH]; intros st.
  - exists (Some query), st. simpl. split; [done|]. split; [by right|].
    split; [done|]. split; reflexivity.
  - simpl. unfold bind at 1.
    destruct (matchVal_returns (query_get query key) expected st)
      as (b & st1 & -> & Hq1 & Hp1 & Hl1).
    destruct b; simpl.
    + destruct (IH st1) as (res & st2 & -> & Hres & Hq2 & Hp2 & Hl2).
      exists res, st2. split; [done|]. split; [done|]. split; [congruence|].
      split; etrans; eauto.
    + exists None, st1. split; [done|]. split; [by left|]. done.
Qed.


Lemma hashMismatch_returns m hash st :
  ∃ b st', hashMismatch m hash st = (Ret b, st') ∧
    queries st' = queries st ∧ same_patterns st st' ∧ logs matcher_call st st'.
Proof.
  unfold hashMismatch.
  destruct (Matchers.hash m) as [expected|];
    [|exists false, st; repeat split; reflexivity].
  destruct (truthy expected); simpl; [|exists false, st; repeat split; reflexivity].
  unfold bind at 1.
  destruct (matchVal_returns (VString hash) expected st) as (b & st' & -> & Hrest).
  by exists (negb b), st'.
Qed.


Lemma reduce_params_trace f values ks index (acc : Params.t A) st :
  ∃ p st', reduce_params f values ks index acc st = (Ret p, st') ∧
    queries st' = queries st ∧ same_patterns st st' ∧
    trace st' = (reverse (imap (λ i key, CallTransform (default None (values !! (index + i)))
                                                       (name key)) ks)
                 ++ trace st)%list.
Proof.
  revert index acc st. induction ks as [|key rest IH]; intros index acc st.
  - eexists _, st. simpl. repeat split; reflexivity.
  - simpl. unfold bind at 1. simpl.
    destruct (IH (S index)
                 (Params.assign (name key) (f (default None (values !! index)) (name key)) acc)
                 (mkState (queries st) (patternCache st) (cacheCount st) (nextOid st)
                          (CallTransform (default None (values !! index)) (name key)
                             :: trace st) (lastIndex st)))
      as (p & st' & -> & Hq & Hp & Htrace).
    exists p, st'. split; [done|]. split; [done|]. split; [done|].
    rewrite Htrace. simpl. rewrite reverse_cons, Nat.add_0_r, <- app_assoc. simpl.
    f_equal. f_equal. apply imap_ext. intros i key' _. simpl.
    by rewrite Nat.add_succ_r.
Qed.

Lemma decompose_loc_of l st :
  ∃ st0, decompose l st = (Ret (loc_of l), st0) ∧
    queries st0 = queries st ∧ same_patterns st st0 ∧ logs not_transform st st0 ∧
    lastIndex st0 = lastIndex st ∧ logs no_compile_no_parse st st0.
Proof.
  destruct l as [s|loc]; eexists; (split; [reflexivity|]); simpl;
    (split; [done|]); (split; [done|]).
  - split; [|split; [done|]];
      (exists [CallParsePath s]; split; [done|]; by repeat constructor).
  - split; [|split; [done|]]; by exists [].
Qed.

Lemma transformed_returns o values ks st :
  ∃ params st', transformed o values ks st = (Ret params, st') ∧
    queries st' = queries st ∧ same_patterns st st' ∧
    (is_Some params ↔ is_Some (Options.transform o)) ∧
    trace st' = (match Options.transform o with
                 | Some _ => reverse (transform_calls values ks)
                 | None => []
                 end ++ trace st)%list.
Proof.
  unfold transformed. destruct (Options.transform o) as [f|].
  - unfold bind at 1.
    destruct (reduce_params_trace f values ks 0 Params.empty st)
      as (p & st' & -> & Hq & Hp & Htrace).
    exists (Some p), st'. split; [done|]. split; [done|]. split; [done|].
    split; [by split; eauto|]. exact Htrace.
  - exists None, st. repeat split; try done; by intros [? ?].
Qed.

(** [matchQuery] is the making of the query object, which is what it
    does without a matcher, followed by the loop. *)
Lemma matchQuery_unfold search matcher st :
  matchQuery search matcher st
  = match matchQuery search None st with
    | (Ret (Some query), st1) =>
      match matcher with
      | Some entries => matchQuery_loop query entries st1
      | None => (Ret (Some query), st1)
      end
    | other => other
    end.
Proof.
  unfold matchQuery. rewrite !bind_unfold.
  destruct ((match search with
             | Some s => if bool_decide (s = "") then ret QLiteral else parseSearch s
             | None => ret QLiteral
             end) st) as [[q|] st1]; [|done].
  by destruct matcher.
Qed.

(** The making of the query object. *)
Lemma matchQuery_None_spec search st :
  ∃ query st1, matchQuery search None st = (Ret (Some query), st1) ∧
    same_patterns st st1 ∧ queries_retained st st1 ∧ logs not_transform st st1 ∧
    (tidy st → query = query_of search ∧ tidy st1) ∧
    (∀ s, search = Some s → s ≠ "" →
       is_Some (queries st1 !! s) ∨ inherited s = true) ∧
    (∀ s, search = Some s → s ≠ "" →
       is_Some (queries st !! s) ∨ inherited s = true → st1 = st) ∧
    (search = None ∨ search = Some "" → st1 = st).
Proof.
  assert ((∃ st1, matchQuery search None st = (Ret (Some QLiteral), st1) ∧ st1 = st ∧
             (search = None ∨ search = Some ""))
          ∨ (∃ s, search = Some s ∧ s ≠ "" ∧
               matchQuery search None st
               = (match (parseSearch s st).1 with
                  | Ret q => Ret (Some q)
                  | Throw => Throw
                  end, (parseSearch s st).2)))
    as [(st1 & Hrun & -> & Hs)|(s & -> & Hne & Hrun)].
  { destruct search as [s|]; [|left; exists st; by eauto].
    destruct (decide (s = "")) as [->|Hne]; [left; exists st; by eauto|].
    right. exists s. split; [done|]. split; [done|].
    unfold matchQuery. rewrite bind_unfold.
    rewrite bool_decide_eq_false_2 by done.
    by destruct (parseSearch s st) as [[q|] st1]. }
  - exists QLiteral, st. split; [done|]. split; [done|]. split; [done|].
    split; [reflexivity|]. split; [|split; [|split]]; try done.
    + intros Hti. split; [|done]. by destruct Hs as [->| ->].
    + intros s Heq Hne. destruct Hs as [?|?]; by simplify_eq.
  - destruct (parseSearch_cases s st) as (q & st1 & Hparse & _ & Hcases).
    rewrite Hparse in Hrun. simpl in Hrun.
    exists q, st1. split; [done|].
    split; [pose proof (parseSearch_same_patterns s st) as H; by rewrite Hparse in H|].
    split; [pose proof (parseSearch_queries_retained s st) as H; by rewrite Hparse in H|].
    split; [|split; [|split; [|split]]].
    + destruct Hcases as [(p & _ & _ & ->)|[(_ & _ & _ & ->)|(_ & _ & _ & Htrace & _)]];
        [reflexivity|reflexivity|].
      exists [CallQsParse s]. split; [done|]. by repeat constructor.
    + intros Hti. destruct (parseSearch_tidy s st Hti) as (st1' & Hrun' & Hti' & _).
      rewrite Hparse in Hrun'. injection Hrun' as -> <-. split; [|done].
      simpl. by rewrite bool_decide_eq_false_2.
    + intros s' [= <-] _.
      destruct Hcases as [(p & Hp & _ & ->)|[(_ & ? & _)|(_ & _ & _ & _ & Hq & _)]].
      * left. by eexists.
      * by right.
      * left. rewrite Hq, lookup_insert_eq. by eexists.
    + intros s' [= <-] _ Hwarm.
      destruct Hcases as [(p & _ & _ & ->)|[(_ & _ & _ & ->)|(Hnone & Hinh & _)]];
        [done|done|].
      destruct Hwarm as [[p Hp]|Hinh']; congruence.
    + intros [?|?]; by simplify_eq.
Qed.

(** What [matchUrl] does once the path has matched. *)
Lemma matchUrl_path_matched l m o st st0 mt ks st1 :
  decompose l st = (Ret (loc_of l), st0) →
  matchPath (Location.pathname (loc_of l)) (Matchers.path m) o st0
  = (Ret (Some mt, ks), st1) →
  ∃ query st2 res st3 st',
    matchQuery (Some (Location.search (loc_of l))) None st1 = (Ret (Some query), st2) ∧
    matchUrl l m o st = (Ret res, st') ∧
    queries st' = queries st2 ∧ same_patterns st2 st' ∧
    logs matcher_call st2 st3 ∧
    trace st' = (match res, Options.transform o with
                 | Some _, Some _ => reverse (transform_calls (tail mt) ks)
                 | _, _ => []
                 end ++ trace st3)%list ∧
    (∀ r, res = Some r →
       r = MatchResult.mk (MatchResult.params r) query (Location.hash (loc_of l))
             (matchedPath_of m (default None (head mt))) m
             (default false (Options.partial o)) ∧
       (is_Some (MatchResult.params r) ↔ is_Some (Options.transform o))).
Proof.
  intros Hdec Hpath. set (loc := loc_of l) in *.
  destruct (matchQuery_None_spec (Some (Location.search loc)) st1)
    as (query & st2 & Hnone & _).
  exists query, st2.
  unfold matchUrl. rewrite bind_unfold, Hdec. fold loc. cbn beta iota.
  rewrite bind_unfold, Hpath. cbn beta iota.
  rewrite bind_unfold, (matchQuery_unfold _ (Matchers.query m)), Hnone.
  assert (∃ q st2', (match Matchers.query m with
                     | Some entries => matchQuery_loop query entries st2
                     | None => (Ret (Some query), st2)
                     end) = (Ret q, st2') ∧ (q = None ∨ q = Some query) ∧
            queries st2' = queries st2 ∧ same_patterns st2 st2' ∧
            logs matcher_call st2 st2') as (q & st2' & -> & Hq & Hq2 & Hp2 & Hl2).
  { destruct (Matchers.query m) as [entries|].
    - apply matchQuery_loop_returns.
    - exists (Some query), st2. split; [done|]. split; [by right|].
      split; [done|]. split; reflexivity. }
  cbn beta iota.
  destruct Hq as [->| ->].
  { exists None, st2', st2'. split; [done|]. split; [done|]. do 3 (split; [done|]).
    split; [done|]. by intros r. }
  rewrite bind_unfold.
  destruct (hashMismatch_returns m (Location.hash loc) st2')
    as (mismatch & st3 & -> & Hq3 & Hp3 & Hl3).
  cbn beta iota.
  assert (logs matcher_call st2 st3) as Hl by by etrans.
  destruct mismatch.
  { exists None, st3, st3. split; [done|]. split; [done|]. split; [congruence|].
    split; [by etrans|]. split; [done|]. split; [done|]. by intros r. }
  rewrite bind_unfold.
  destruct (transformed_returns o (tail mt) ks st3)
    as (params & st4 & -> & Hq4 & Hp4 & Hsome & Htrace).
  cbn beta iota. eexists _, st3, st4. split; [done|]. split; [reflexivity|].
  split; [congruence|]. split; [by etrans; [|etrans]|]. split; [done|].
  split.
  - rewrite Htrace. by destruct (Options.transform o).
  - intros r [= <-]. done.
Qed.

(** ** The loop over the query matchers *)

Lemma matchQuery_loop_stops query pre post st :
  (matchQuery_loop query pre st).1 = Ret None →
  matchQuery_loop query (pre ++ post) st = matchQuery_loop query pre st.
Proof.
  revert st. induction pre as [|[k e] pre IH]; intros st; simpl.
  - discriminate.
  - rewrite !bind_unfold.
    destruct (matchVal (query_get query k) e st) as [[[|]|] st1]; simpl; [|done|done].
    apply IH.
Qed.

(** X8. [matchQuery] stops at the first key whose matcher fails: when
    it returns [null] for a matcher object, it does the same, state
    and log included, for every matcher object that has further entries
    after those of the first (no predicate or pattern of a later entry
    is called). *)
Theorem matchQuery_stops_at_first_failure search pre post st :
  (matchQuery search (Some pre) st).1 = Ret None →
  matchQuery search (Some (pre ++ post)) st = matchQuery search (Some pre) st.
Proof.
  rewrite !(matchQuery_unfold search (Some _)).
  destruct (matchQuery search None st) as [[[query|]|] st1]; [|done|done].
  apply matchQuery_loop_stops.
Qed.



Lemma matchQuery_logs search matcher : respects (logs not_transform) (matchQuery search matcher).
Proof.
  intros st. rewrite matchQuery_unfold.
  destruct (matchQuery_None_spec search st) as (query & st1 & -> & _ & _ & Hl1 & _).
  destruct matcher as [entries|]; simpl; [|done].
  destruct (matchQuery_loop_returns query entries st1) as (res & st2 & -> & _ & _ & _ & Hl2).
  simpl. etrans; [exact Hl1|]. eapply logs_mono; [apply matcher_call_not_transform|done].
Qed.

(** X10. [transform] is called on a successful match only, after path,
    query and hash have been checked: once per compiled key, in the
    order of the keys, with the capture at the key's position and the
    key's name. A call of [matchUrl] that returns [null], or that is
    given no [transform], makes no such call. *)
Theorem transform_called_once_per_key l m o st res st' :
  matchUrl l m o st = (Ret res, st') →
  ∃ st0 mt ks st1 st3,
    decompose l st = (Ret (loc_of l), st0) ∧
    matchPath (Location.pathname (loc_of l)) (Matchers.path m) o st0 = (Ret (mt, ks), st1) ∧
    logs not_transform st st3 ∧
    trace st' = (match res, mt, Options.transform o with
                 | Some _, Some match_, Some _ => reverse (transform_calls (tail match_) ks)
                 | _, _, _ => []
                 end ++ trace st3)%list.
Proof.
  intros Hrun.
  pose proof Hrun as Hinv.
  apply matchUrl_inv in Hinv as (loc & st0 & mt & ks & st1 & Hdec & Hpath & Hrest).
  destruct (decompose_loc_of l st) as (st0' & Hdec' & _ & _ & Hl0 & _).
  rewrite Hdec in Hdec'. injection Hdec' as -> <-.
  assert (logs not_transform st st1) as Hl1.
  { etrans; [exact Hl0|].
    pose proof (matchPath_logs (Location.pathname (loc_of l)) (Matchers.path m) o st0) as H.
    rewrite Hpath in H. eapply logs_mono; [apply compile_or_exec_not_transform|done]. }
  exists st0, mt, ks, st1.
  destruct mt as [match_|]; [|destruct Hrest as [-> ->]; by exists st1].
  clear Hrest.
  destruct (matchUrl_path_matched l m o st st0 match_ ks st1 Hdec Hpath)
    as (query & st2 & res' & st3 & st'' & Hnone & Hrun' & _ & _ & Hl23 & Htrace & _).
  rewrite Hrun in Hrun'. injection Hrun' as <- <-.
  exists st3. split; [done|]. split; [done|]. split; [|done].
  etrans; [exact Hl1|]. etrans.
  - pose proof (matchQuery_logs (Some (Location.search (loc_of l))) None st1) as H.
    rewrite Hnone in H. exact H.
  - eapply logs_mono; [apply matcher_call_not_transform|done].
Qed.

(** ** The whole of [matchUrl] in a tidy state *)

Lemma matchUrl_path_raises l m o st loc st0 st1 :
  decompose l st = (Ret loc, st0) →
  matchPath (Location.pathname loc) (Matchers.path m) o st0 = (Throw, st1) →
  matchUrl l m o st = (Throw, st1).
Proof.
  intros Hdec Hpath. unfold matchUrl. rewrite bind_unfold, Hdec. cbn beta iota.
  by rewrite bind_unfold, Hpath.
Qed.

(** The run of [matchPath] inside a call of [matchUrl] from a tidy
    state. *)
Lemma matchUrl_matchPath_tidy l m o st :
  tidy st →
  ∃ st0 st1, decompose l st = (Ret (loc_of l), st0) ∧
    matchPath (Location.pathname (loc_of l)) (Matchers.path m) o st0
    = ((if inherited (Matchers.path m) then Throw
        else match compiler_output (Matchers.path m) o with
             | Some (r, ks) => Ret (exec r (Location.pathname (loc_of l)), ks)
             | None => Throw
             end), st1) ∧
    tidy st1.
Proof.
  intros Hti.
  destruct (decompose_loc_of l st) as (st0 & Hdec & Hq0 & Hp0 & _).
  assert (tidy st0) as Hti0 by (eapply tidy_same; [done|apply Hp0|done]).
  destruct (matchPath_tidy (Location.pathname (loc_of l)) (Matchers.path m) o st0 Hti0)
    as (Hres & Hti1 & _).
  exists st0, (matchPath (Location.pathname (loc_of l)) (Matchers.path m) o st0).2.
  split; [done|]. split; [|done]. rewrite <- Hres. apply surjective_pairing.
Qed.



(** X12. In a tidy state the result of a successful match carries the
    query object of the location (for a parsed query also the keys no
    matcher names), the fragment as given, the descriptor itself and the
    [partial] option with default [false]; its [matchedPath] is index 0
    of the match, except that the empty string is reported as ["/"] for
    the pattern ["/"]. *)
Theorem match_result_fields l m o st r :
  tidy st →
  (matchUrl l m o st).1 = Ret (Some r) →
  let loc := loc_of l in
  MatchResult.query r = query_of (Some (Location.search loc)) ∧
  MatchResult.hash r = Location.hash loc ∧
  MatchResult.matchers r = m ∧
  MatchResult.partial r = default false (Options.partial o) ∧
  inherited (Matchers.path m) = false ∧
  ∃ re ks mt,
    compiler_output (Matchers.path m) o = Some (re, ks) ∧
    exec re (Location.pathname loc) = Some mt ∧
    MatchResult.matchedPath r
    = if bool_decide (Matchers.path m = "/" ∧ head mt = Some (Some ""))
      then Some "/" else default None (head mt).
Proof.
  intros Hti Hrun loc.
  destruct (matchUrl_matchPath_tidy l m o st Hti) as (st0 & st1 & Hdec & Hpath & Hti1).
  fold loc in Hdec, Hpath.
  destruct (inherited (Matchers.path m)) eqn:Hinh.
  { rewrite (matchUrl_path_raises _ _ _ _ _ _ _ Hdec Hpath) in Hrun. discriminate. }
  destruct (compiler_output (Matchers.path m) o) as [[re ks]|] eqn:Hout; cycle 1.
  { rewrite (matchUrl_path_raises _ _ _ _ _ _ _ Hdec Hpath) in Hrun. discriminate. }
  destruct (exec re (Location.pathname loc)) as [mt|] eqn:Hexec; cycle 1.
  { rewrite (matchUrl_path_failure _ _ _ _ _ _ _ _ Hdec Hpath) in Hrun. discriminate. }
  destruct (matchUrl_path_matched l m o st st0 mt ks st1 Hdec Hpath)
    as (query & st2 & res & st3 & st' & Hnone & Hrun' & _ & _ & _ & _ & Hr).
  rewrite Hrun' in Hrun. injection Hrun as ->.
  destruct (Hr r eq_refl) as [Hfields _].
  destruct (matchQuery_None_spec (Some (Location.search loc)) st1)
    as (query' & st2' & Hnone' & _ & _ & _ & Hq & _).
  fold loc in Hnone. rewrite Hnone in Hnone'. injection Hnone' as <- <-.
  destruct (Hq Hti1) as [-> _].
  rewrite Hfields. simpl. fold loc.
  do 5 (split; [done|]). exists re, ks, mt. split; [done|]. split; [done|].
  unfold matchedPath_of.
  assert (default None (head mt) = Some "" ↔ head mt = Some (Some "")) as Hhead.
  { destruct (head mt) as [[p|]|]; simpl; split; intros Hsame; by simplify_eq. }
  destruct (decide (Matchers.path m = "/")) as [Hm|Hm];
    destruct (decide (default None (head mt) = Some "")) as [Hp|Hp].
  - rewrite !bool_decide_eq_true_2; [done|by split; [|apply Hhead]|done|done].
  - rewrite (bool_decide_eq_false_2 (default _ _ = _)); [|done].
    rewrite andb_false_r. rewrite bool_decide_eq_false_2; [done|].
    intros [_ Hsame]. by apply Hp, Hhead.
  - rewrite (bool_decide_eq_false_2 (Matchers.path m = _)); [|done]. simpl.
    rewrite bool_decide_eq_false_2; [done|]. by intros [? _].
  - rewrite (bool_decide_eq_false_2 (Matchers.path m = _)); [|done]. simpl.
    rewrite bool_decide_eq_false_2; [done|]. by intros [? _].
Qed.

(** *** The log bears on nothing *)

Lemma same_but_trace_emit e : simulates same_but_trace (emit e).
Proof. intros st1 st2 H. done. Qed.

Lemma same_but_trace_test r s : simulates same_but_trace (test r s).
Proof.
  intros st1 st2 (Hq & Hpc & Hcount & Hoid & Hli). unfold test.
  destruct (advancing r); [|done]. run. rewrite Hli.
  destruct (exec_at r _ s) as [[mt e]|]; simpl; by rewrite ?Hli.
Qed.

Lemma same_but_trace_compilePath pattern o :
  simulates same_but_trace (compilePath pattern o).
Proof.
  intros [q1 pc1 n1 o1 t1 l1] [q2 pc2 n2 o2 t2 l2] (Hq & Hpc & Hcount & Hoid & Hli).
  simpl in *. subst. unfold compilePath, bucket, bucket_store, cache_get. run.
  destruct (pc2 !! _) as [cache|]; simpl.
  - destruct (cache !! pattern); simpl; [done|].
    destruct (inherited pattern); simpl; [done|].
    destruct (pathToRegexp _ _ _) as [[r ks]|]; simpl; [|done].
    by destruct (n2 <? cacheLimit)%Z.
  - rewrite lookup_empty. destruct (inherited pattern); simpl; [done|].
    destruct (pathToRegexp _ _ _) as [[r ks]|]; simpl; [|done].
    by destruct (n2 <? cacheLimit)%Z.
Qed.

Lemma same_but_trace_matchPath path matcher o :
  simulates same_but_trace (matchPath path matcher o).
Proof.
  unfold matchPath. apply simulates_bind; [apply same_but_trace_compilePath|].
  intros [c|b]; [|apply simulates_throw].
  apply simulates_bind; [apply same_but_trace_emit|]. intros. apply simulates_ret.
Qed.

Lemma same_but_trace_parseSearch search : simulates same_but_trace (parseSearch search).
Proof.
  intros st1 st2 (Hq & Hpc & Hcount & Hoid & Hli). unfold parseSearch. run.
  rewrite Hq. destruct (queries st2 !! search); simpl; [done|].
  by destruct (inherited search).
Qed.

(** X13. A location given as a string is matched as the location
    [parsePath] makes of it. *)
Theorem string_location_is_decomposed s m o st :
  coherent st →
  (matchUrl (inl s) m o st).1 = (matchUrl (inr (parsePath s)) m o st).1.
Proof.
  intros _.
  assert (matchUrl (inl s) m o st
          = matchUrl (inr (parsePath s)) m o
              (mkState (queries st) (patternCache st) (cacheCount st) (nextOid st)
                       (CallParsePath s :: trace st) (lastIndex st))) as -> by reflexivity.
  apply (simulates_matchUrl same_but_trace (λ _, True)).
  - apply same_but_trace_emit.
  - intros r s' _. apply same_but_trace_test.
  - apply same_but_trace_matchPath.
  - apply same_but_trace_parseSearch.
  - by apply Forall_forall.
  - done.
Qed.

(** X14. In a tidy state, once the path has matched, the parse of a
    search string that is not empty and names no inherited property is
    in the query cache when [matchUrl] returns, also when it returns
    [null] because the query or the hash does not match. *)
Theorem matched_path_caches_the_query l m o st re ks mt :
  tidy st →
  inherited (Matchers.path m) = false →
  compiler_output (Matchers.path m) o = Some (re, ks) →
  exec re (Location.pathname (loc_of l)) = Some mt →
  Location.search (loc_of l) ≠ "" →
  inherited (Location.search (loc_of l)) = false →
  queries (matchUrl l m o st).2 !! Location.search (loc_of l)
  = Some (qs_parse (Location.search (loc_of l))).
Proof.
  intros Hti Hinh Hout Hexec Hne Hsearch.
  destruct (matchUrl_matchPath_tidy l m o st Hti) as (st0 & st1 & Hdec & Hpath & Hti1).
  rewrite Hinh, Hout, Hexec in Hpath.
  destruct (matchUrl_path_matched l m o st st0 mt ks st1 Hdec Hpath)
    as (query & st2 & res & st3 & st' & Hnone & -> & Hq & _).
  simpl. rewrite Hq.
  destruct (matchQuery_None_spec (Some (Location.search (loc_of l))) st1)
    as (query' & st2' & Hnone' & _ & _ & _ & Htidy & Hwarm & _).
  rewrite Hnone in Hnone'. injection Hnone' as <- <-.
  destruct (Htidy Hti1) as [_ ([Hparses _] & _)].
  destruct (Hwarm _ eq_refl Hne) as [[p Hp]|?]; [|congruence].
  rewrite Hp. f_equal. by apply Hparses.
Qed.

(** ** What the caches save *)

Lemma transform_calls_no_compile_no_parse values ks :
  Forall no_compile_no_parse (reverse (transform_calls values ks)).
Proof.
  apply Forall_reverse. unfold transform_calls. apply Forall_forall.
  intros e Hin. apply list_elem_of_lookup in Hin as [i Hi].
  rewrite list_lookup_imap in Hi. destruct (ks !! i); simpl in Hi; by simplify_eq.
Qed.

(** Everything [matchUrl] does after [matchPath] leaves the pattern
    cache and its counter alone. *)
Lemma matchUrl_after_matchPath l m o st :
  ∃ st0, decompose l st = (Ret (loc_of l), st0) ∧
    same_patterns (matchPath (Location.pathname (loc_of l)) (Matchers.path m) o st0).2
                  (matchUrl l m o st).2.
Proof.
  destruct (decompose_loc_of l st) as (st0 & Hdec & _).
  exists st0. split; [done|].
  unfold matchUrl. unfold bind at 1. rewrite Hdec. unfold bind at 1.
  destruct (matchPath _ _ _ st0) as [[[mt ks]|] st1]; [|done]. simpl.
  destruct mt as [match_|]; [|done].
  assert (∀ e, respects same_patterns (emit e)) as Hemit by done.
  assert (∀ li, respects same_patterns (set_lastIndex li)) as Hli by done.
  assert (∀ q, respects same_patterns (set_queries q)) as Hset by done.
  pose proof (respects_matchQuery same_patterns Hemit Hli Hset) as Hquery.
  pose proof (respects_hashMismatch same_patterns Hemit Hli) as Hhash.
  pose proof (respects_transformed same_patterns Hemit) as Htr.
  revert st1.
  match goal with |- ∀ st1, same_patterns st1 (?c st1).2 =>
    change (respects same_patterns c) end.
  repeat respects_step.
Qed.

(** The pattern of a call is warm when [compilePath] finds something
    for it without compiling, the search string when [parseSearch]
    finds something for it without parsing. *)
Lemma warm_call l m o st :
  match cache_lookup st (key_of o) (Matchers.path m) with
  | Some c =>
    is_Some (exec (re c) (Location.pathname (loc_of l))) →
    Location.search (loc_of l) ≠ "" →
    is_Some (queries st !! Location.search (loc_of l))
    ∨ inherited (Location.search (loc_of l)) = true
  | None => inherited (Matchers.path m) = true
  end →
  logs no_compile_no_parse st (matchUrl l m o st).2.
Proof.
  intros Hwarm. set (loc := loc_of l) in *.
  destruct (decompose_loc_of l st) as (st0 & Hdec & Hq0 & (Hpc0 & _) & _ & _ & Hl0).
  fold loc in Hdec.
  assert (∀ k q, cache_lookup st0 k q = cache_lookup st k q) as Hk0.
  { intros k q. unfold cache_lookup. by rewrite Hpc0. }
  pose proof (compilePath_spec (Matchers.path m) o st0) as Hspec.
  rewrite Hk0 in Hspec.
  destruct (cache_lookup st (key_of o) (Matchers.path m)) as [c|] eqn:Hc; cycle 1.
  { rewrite Hwarm in Hspec. destruct Hspec as (st1 & Hrun & _ & _ & _ & Htrace & _).
    assert (matchPath (Location.pathname loc) (Matchers.path m) o st0 = (Throw, st1))
      as Hpath by by rewrite matchPath_unfold, Hrun.
    rewrite (matchUrl_path_raises _ _ _ _ _ _ _ Hdec Hpath). simpl.
    etrans; [exact Hl0|]. exists []. by split. }
  set (st1 := mkState (queries st0) (patternCache st0) (cacheCount st0) (nextOid st0)
                      (CallExec (oid c) (Location.pathname loc) :: trace st0)
                      (lastIndex st0)).
  assert (matchPath (Location.pathname loc) (Matchers.path m) o st0
          = (Ret (exec (re c) (Location.pathname loc), keys c), st1)) as Hpath
    by by rewrite matchPath_unfold, Hspec.
  assert (logs no_compile_no_parse st st1) as Hl1.
  { etrans; [exact Hl0|]. exists [CallExec (oid c) (Location.pathname loc)].
    split; [done|]. by repeat constructor. }
  destruct (exec (re c) (Location.pathname loc)) as [mt|] eqn:Hexec; cycle 1.
  { by rewrite (matchUrl_path_failure _ _ _ _ _ _ _ _ Hdec Hpath). }
  destruct (matchUrl_path_matched l m o st st0 mt (keys c) st1 Hdec Hpath)
    as (query & st2 & res & st3 & st' & Hnone & -> & _ & _ & Hl23 & Htrace & _).
  simpl.
  destruct (matchQuery_None_spec (Some (Location.search loc)) st1)
    as (query' & st2' & Hnone' & _ & _ & _ & _ & _ & Hsame & Hempty).
  fold loc in Hnone. rewrite Hnone in Hnone'. injection Hnone' as <- <-.
  assert (st2 = st1) as ->.
  { destruct (decide (Location.search loc = "")) as [Hs|Hs].
    - apply Hempty. right. by rewrite Hs.
    - apply (Hsame _ eq_refl Hs). simpl. rewrite Hq0.
      by apply Hwarm; [eexists|]. }
  etrans; [exact Hl1|]. etrans.
  - eapply logs_mono; [apply matcher_call_no_compile_no_parse|exact Hl23].
  - eexists. split; [exact Htrace|].
    destruct res; [|constructor]. destruct (Options.transform o); [|constructor].
    apply transform_calls_no_compile_no_parse.
Qed.

(** What [matchPath] returns when the pattern is cached afterwards. *)
Lemma matchPath_cached_afterwards path matcher o st c :
  cache_lookup (matchPath path matcher o st).2 (key_of o) matcher = Some c →
  (matchPath path matcher o st).1 = Ret (exec (re c) path, keys c).
Proof.
  rewrite matchPath_unfold.
  pose proof (compilePath_spec matcher o st) as Hspec.
  destruct (cache_lookup st (key_of o) matcher) as [c0|] eqn:Hlook.
  { rewrite Hspec. simpl. unfold cache_lookup in *. simpl. rewrite Hlook.
    by intros [= ->]. }
  destruct (inherited matcher).
  { destruct Hspec as (st' & -> & _ & _ & _ & _ & _ & Hk). simpl. rewrite Hk. congruence. }
  simpl in Hspec. destruct (compiler_output matcher o) as [[r ks]|].
  - destruct Hspec as (st' & -> & _ & _ & _ & _ & Hcase). simpl.
    assert (∀ k q, cache_lookup
                     (mkState (queries st') (patternCache st') (cacheCount st') (nextOid st')
                        (CallExec (nextOid st) path :: trace st') (lastIndex st')) k q
                   = cache_lookup st' k q) as Heq by done.
    rewrite Heq.
    destruct (cacheCount st <? cacheLimit)%Z; destruct Hcase as [_ Hk]; rewrite Hk.
    + rewrite decide_True by done. by intros [= <-].
    + congruence.
  - destruct Hspec as (st' & -> & _ & _ & _ & _ & _ & Hk). simpl. rewrite Hk. congruence.
Qed.

(** X15. What the caches are for: when the compiler accepts the pattern
    and the counter is below the ceiling, a call of [matchUrl] repeated
    with the same arguments calls neither the compiler nor [qs.parse]. *)
Theorem repeated_call_uses_the_caches l m o st :
  coherent st →
  (cacheCount st < cacheLimit)%Z →
  is_Some (compiler_output (Matchers.path m) o) →
  logs no_compile_no_parse (matchUrl l m o st).2
       (matchUrl l m o (matchUrl l m o st).2).2.
Proof.
  intros _ Hlt [[r ks] Hout].
  apply warm_call.
  destruct (matchUrl_after_matchPath l m o st) as (st0 & Hdec & Hsame).
  destruct (decompose_spec l st)
    as (loc' & st0' & Hdec' & _ & (_ & Hcount0 & _) & Hk0 & _).
  rewrite Hdec in Hdec'. injection Hdec' as _ <-.
  set (loc := loc_of l) in *.
  assert (∀ k q, cache_lookup (matchUrl l m o st).2 k q
                 = cache_lookup (matchPath (Location.pathname loc) (Matchers.path m) o st0).2
                                k q) as Hk.
  { intros k q. unfold cache_lookup. by rewrite (proj1 Hsame). }
  rewrite Hk.
  destruct (cache_lookup (matchPath _ _ _ st0).2 (key_of o) (Matchers.path m))
    as [c|] eqn:Hc.
  - intros [mt Hexec] Hne.
    pose proof (matchPath_cached_afterwards _ _ _ _ _ Hc) as Hres.
    rewrite Hexec in Hres.
    assert (matchPath (Location.pathname loc) (Matchers.path m) o st0
            = (Ret (Some mt, keys c),
               (matchPath (Location.pathname loc) (Matchers.path m) o st0).2)) as Hpath.
    { rewrite <- Hres. apply surjective_pairing. }
    destruct (matchUrl_path_matched l m o st st0 mt (keys c) _ Hdec Hpath)
      as (query & st2 & res & st3 & st' & Hnone & -> & Hq & _).
    simpl. rewrite Hq.
    destruct (matchQuery_None_spec (Some (Location.search loc))
                (matchPath (Location.pathname loc) (Matchers.path m) o st0).2)
      as (query' & st2' & Hnone' & _ & _ & _ & _ & Hwarm & _).
    fold loc in Hnone. rewrite Hnone in Hnone'. injection Hnone' as <- <-.
    by apply Hwarm.
  - revert Hc. rewrite matchPath_unfold.
    pose proof (compilePath_spec (Matchers.path m) o st0) as Hspec.
    destruct (cache_lookup st0 (key_of o) (Matchers.path m)) as [c|] eqn:Hlook.
    { rewrite Hspec. unfold cache_lookup in *. simpl. congruence. }
    destruct (inherited (Matchers.path m)); [done|].
    simpl in Hspec. rewrite Hout in Hspec.
    destruct Hspec as (st' & -> & _ & _ & _ & _ & Hcase).
    rewrite Hcount0 in Hcase. apply Z.ltb_lt in Hlt. rewrite Hlt in Hcase.
    destruct Hcase as [_ Hk']. unfold cache_lookup in *. simpl. rewrite Hk'.
    by rewrite decide_True.
Qed.

(** ** The caches apart from the inherited names *)

(** X16. The counter of compiled patterns never passes [cacheLimit].
    For a pattern that names no inherited property: below the ceiling a
    miss stores the compiled pattern and adds one to the counter; from
    the ceiling on a miss still returns what the compiler computes but
    stores nothing, and compiling the same pattern again calls the
    compiler again and yields a new object. From the ceiling on the
    counter and the cached entries stay as they are through every later
    call, and no entry is ever evicted. *)
Theorem compile_counter_latch :
  (∀ st, reachable (A := A) st → (cacheCount st ≤ cacheLimit)%Z) ∧
  (∀ pattern o st r ks,
     cache_lookup st (key_of o) pattern = None →
     inherited pattern = false →
     compiler_output pattern o = Some (r, ks) →
     (cacheCount st < cacheLimit)%Z →
     ∃ c st', compilePath pattern o st = (Ret (Stored c), st') ∧
       re c = r ∧ keys c = ks ∧
       cache_lookup st' (key_of o) pattern = Some c ∧
       cacheCount st' = (cacheCount st + 1)%Z) ∧
  (∀ pattern o st r ks,
     cache_lookup st (key_of o) pattern = None →
     inherited pattern = false →
     compiler_output pattern o = Some (r, ks) →
     (cacheLimit ≤ cacheCount st)%Z →
     ∃ c st', compilePath pattern o st = (Ret (Stored c), st') ∧
       re c = r ∧ keys c = ks ∧
       cacheCount st' = cacheCount st ∧
       (∀ k q, cache_lookup st' k q = cache_lookup st k q) ∧
       ∃ c2 st'', compilePath pattern o st' = (Ret (Stored c2), st'') ∧
         re c2 = r ∧ keys c2 = ks ∧ oid c2 ≠ oid c ∧
         trace st'' = CallPathToRegexp pattern (negb (flags o).1) (flags o).2
                        :: trace st') ∧
  (∀ st st', steps (A := A) st st' →
     (cacheLimit ≤ cacheCount st)%Z →
     cacheCount st' = cacheCount st ∧
     ∀ k q, cache_lookup st' k q = cache_lookup st k q) ∧
  (∀ st st' k q c, steps (A := A) st st' →
     cache_lookup st k q = Some c → cache_lookup st' k q = Some c).
Proof.
  split; [|split; [|split; [|split]]].
  - intros st Hreach. apply steps_cache_evolves in Hreach as (Hb & _ & _).
    apply Hb. simpl. unfold cacheLimit. lia.
  - intros pattern o st r ks Hmiss Hinh Hout Hlt.
    pose proof (compilePath_spec pattern o st) as Hspec.
    rewrite Hmiss, Hinh, Hout in Hspec. simpl in Hspec.
    destruct Hspec as (st' & Hrun & _ & _ & _ & _ & Hcase).
    apply Z.ltb_lt in Hlt. rewrite Hlt in Hcase. destruct Hcase as [Hcount Hk].
    eexists _, st'. split; [exact Hrun|]. simpl. repeat split; [|done].
    rewrite Hk. by rewrite decide_True.
  - intros pattern o st r ks Hmiss Hinh Hout Hge.
    pose proof (compilePath_spec pattern o st) as Hspec.
    rewrite Hmiss, Hinh, Hout in Hspec. simpl in Hspec.
    destruct Hspec as (st' & Hrun & _ & Hoid & _ & _ & Hcase).
    apply Z.ltb_ge in Hge. rewrite Hge in Hcase. destruct Hcase as [Hcount Hk].
    eexists _, st'. split; [exact Hrun|]. simpl. repeat split; [done..|].
    pose proof (compilePath_spec pattern o st') as Hspec'.
    rewrite Hk, Hmiss, Hinh, Hout in Hspec'. simpl in Hspec'.
    destruct Hspec' as (st'' & Hrun' & _ & _ & Htrace & _).
    eexists _, st''. split; [exact Hrun'|]. simpl. repeat split; [|done].
    lia.
  - intros st st' Hsteps Hge.
    apply steps_cache_evolves in Hsteps as (_ & _ & Hl). by apply Hl.
  - intros st st' k q c Hsteps.
    apply steps_cache_evolves in Hsteps as (_ & Hr & _). apply Hr.
Qed.

(** X17. While the counter is below the ceiling, when [compilePath]
    returns a compiled pattern, a second call with the same pattern and
    flags returns the very same object (same identity stamp), found in
    the bucket named by the two flags, and leaves the state as it is:
    no call of the compiler, no new object. The first call returns a
    compiled pattern whenever the pattern names no inherited property
    and the compiler accepts it, and the four flag combinations name
    four different buckets. *)
Theorem compile_twice_same_object :
  (∀ pattern o st c st1,
     (cacheCount st < cacheLimit)%Z →
     compilePath pattern o st = (Ret (Stored c), st1) →
     compilePath pattern o st1 = (Ret (Stored c), st1) ∧
     cache_lookup st1 (cacheKey (flags o).1 (flags o).2) pattern = Some c) ∧
  (∀ pattern o st,
     inherited pattern = false →
     is_Some (compiler_output pattern o) →
     ∃ c st1, compilePath pattern o st = (Ret (Stored c), st1)) ∧
  (∀ partial strict partial' strict',
     cacheKey partial strict = cacheKey partial' strict' →
     partial = partial' ∧ strict = strict').
Proof.
  split; [|split].
  - intros pattern o st c st1 Hlt Hrun.
    pose proof (compilePath_spec pattern o st) as Hspec.
    assert (cache_lookup st1 (key_of o) pattern = Some c) as Hhit.
    { destruct (cache_lookup st (key_of o) pattern) as [c0|] eqn:Hlook.
      - rewrite Hrun in Hspec. by simplify_eq.
      - destruct (inherited pattern).
        { destruct Hspec as (st' & Hrun' & _). rewrite Hrun in Hrun'. discriminate. }
        simpl in Hspec. destruct (compiler_output pattern o) as [[r ks]|].
        + destruct Hspec as (st' & Hrun' & _ & _ & _ & _ & Hcase).
          rewrite Hrun in Hrun'. simplify_eq.
          apply Z.ltb_lt in Hlt. rewrite Hlt in Hcase.
          destruct Hcase as [_ Hk]. rewrite Hk. by rewrite decide_True.
        + destruct Hspec as (st' & Hrun' & _). rewrite Hrun in Hrun'. discriminate. }
    split; [|exact Hhit].
    pose proof (compilePath_spec pattern o st1) as Hspec1.
    by rewrite Hhit in Hspec1.
  - intros pattern o st Hinh [[r ks] Hout].
    pose proof (compilePath_spec pattern o st) as Hspec.
    destruct (cache_lookup st (key_of o) pattern) as [c0|]; [by eauto|].
    rewrite Hinh, Hout in Hspec. simpl in Hspec.
    destruct Hspec as (st' & Hrun & _). eauto.
  - apply cacheKey_inj.
Qed.

(** ** The query matcher and the params apart from the inherited names *)



(** Each name of [ks] ends up bound to the transform of the value at the
    position of its last occurrence; other names keep what the
    accumulator had. *)
Lemma reduce_params_lookup f values ks index (acc : Params.t A) st p st' :
  (∀ key, key ∈ ks → name key ≠ "__proto__") →
  Params.proto_assigned acc = None →
  reduce_params f values ks index acc st = (Ret p, st') →
  Params.proto_assigned p = None ∧
  ∀ n,
    ((∀ key, key ∈ ks → name key ≠ n) ∧ Params.own p !! n = Params.own acc !! n) ∨
    (∃ i key, ks !! i = Some key ∧ name key = n ∧
       (∀ j key', i < j → ks !! j = Some key' → name key' ≠ n) ∧
       Params.own p !! n = Some (f (default None (values !! (index + i))) n)).
Proof.
  revert index acc st. induction ks as [|key rest IH]; intros index acc st Hproto Hacc Hrun.
  - simpl in Hrun. unfold ret in Hrun. simplify_eq. split; [done|].
    intros n. left. split; [|done].
    intros key Hin. by apply elem_of_nil in Hin.
  - simpl in Hrun. unfold bind at 1 in Hrun. simpl in Hrun.
    assert (name key ≠ "__proto__") as Hkey by (apply Hproto; by apply elem_of_cons; left).
    set (acc' := Params.assign (name key) (f (default None (values !! index)) (name key)) acc)
      in *.
    assert (Params.proto_assigned acc' = None ∧
            Params.own acc' = <[name key := f (default None (values !! index)) (name key)]>
                                (Params.own acc)) as [Hacc' Hown].
    { subst acc'. unfold Params.assign. rewrite Hacc.
      by rewrite bool_decide_eq_false_2. }
    assert (∀ key', key' ∈ rest → name key' ≠ "__proto__") as Hproto'.
    { intros key' Hin. apply Hproto. by apply elem_of_cons; right. }
    destruct (IH _ _ _ Hproto' Hacc' Hrun) as [Hp Hlook]. split; [done|].
    intros n.
    destruct (Hlook n) as [[Hnone Hpn]|(i & key' & Hi & Hname & Hlast & Hpn)].
    + destruct (decide (name key = n)) as [Heq|Hne].
      * right. exists 0, key. split; [done|]. split; [done|]. split.
        -- intros j key' Hj Hlook'. destruct j as [|j]; [lia|]. simpl in Hlook'.
           apply Hnone. by eapply list_elem_of_lookup_2.
        -- rewrite Hpn, Hown, <- Heq, lookup_insert_eq. by rewrite Nat.add_0_r.
      * left. split.
        -- intros key' Hin. apply elem_of_cons in Hin as [->|Hin]; auto.
        -- rewrite Hpn, Hown. by apply lookup_insert_ne.
    + right. exists (S i), key'. split; [done|]. split; [done|]. split.
      * intros j key'' Hj Hlook'. destruct j as [|j]; [lia|]. simpl in Hlook'.
        eapply Hlast; [|exact Hlook']. lia.
      * rewrite Hpn. by rewrite Nat.add_succ_r.
Qed.

(** X19. The result of a successful [matchUrl] has [params] exactly
    when [options.transform] is given. Without it [params] is
    [undefined]; with it, and when no compiled key is named
    [__proto__], [params] is an object whose own properties are the
    names of the compiled keys, and the name at position [i] is bound
    to the transform of the capture at position [i] (for a name that
    occurs again later, the later position wins). *)
Theorem params_iff_transform l m o st r st' loc st0 mt ks st1 :
  decompose l st = (Ret loc, st0) →
  matchPath (Location.pathname loc) (Matchers.path m) o st0 = (Ret (Some mt, ks), st1) →
  matchUrl l m o st = (Ret (Some r), st') →
  (is_Some (MatchResult.params r) ↔ is_Some (Options.transform o)) ∧
  (Options.transform o = None → MatchResult.params r = None) ∧
  (∀ f, Options.transform o = Some f →
     (∀ key, key ∈ ks → name key ≠ "__proto__") →
     ∃ p, MatchResult.params r = Some p ∧
       Params.proto_assigned p = None ∧
       (∀ n, is_Some (Params.own p !! n) ↔ ∃ key, key ∈ ks ∧ name key = n) ∧
       (∀ i key, ks !! i = Some key →
          (∀ j key', i < j → ks !! j = Some key' → name key' ≠ name key) →
          Params.own p !! name key = Some (f (default None (tail mt !! i)) (name key)))).
Proof.
  intros Hdec Hpath Hrun.
  apply matchUrl_inv in Hrun as (loc' & st0' & mt' & ks' & st1' & Hdec' & Hpath' & Hrest).
  rewrite Hdec in Hdec'. injection Hdec' as <- <-.
  rewrite Hpath in Hpath'. injection Hpath' as <- <- <-.
  destruct Hrest as (q & st2 & _ & Hrest).
  destruct q as [query|]; [|by destruct Hrest].
  destruct Hrest as (mismatch & st3 & _ & Hrest).
  destruct mismatch; [by destruct Hrest|].
  destruct Hrest as (params & Hparams & Hr). injection Hr as ->. simpl.
  unfold transformed in Hparams.
  destruct (Options.transform o) as [f|] eqn:Hf.
  - unfold bind at 1 in Hparams.
    destruct (reduce_params f (tail mt) ks 0 Params.empty st3) as [[p|] st4] eqn:Hred;
      [|discriminate].
    unfold ret in Hparams. simplify_eq.
    split; [by split; eauto|]. split; [done|].
    intros f' Hf' Hproto. simplify_eq.
    destruct (reduce_params_lookup f' (tail mt) ks 0 Params.empty st3 p st' Hproto eq_refl Hred)
      as [Hnone Hlook].
    exists p. split; [done|]. split; [done|]. split.
    + intros n. destruct (Hlook n) as [[Hno Hp]|(i & key & Hi & Hname & _ & Hp)].
      * rewrite Hp. simpl. rewrite lookup_empty. split; [by intros []|].
        intros (key & Hin & Hname). by apply Hno in Hin.
      * rewrite Hp. split; [|by eauto]. intros _. exists key.
        split; [by eapply list_elem_of_lookup_2|done].
    + intros i key Hi Hlast.
      destruct (Hlook (name key)) as [[Hno _]|(i' & key' & Hi' & Hname & Hlast' & Hp)].
      * exfalso. eapply Hno; [|done]. by eapply list_elem_of_lookup_2.
      * assert (i' = i) as ->.
        { destruct (Nat.lt_trichotomy i i') as [Hlt|[Heq|Hgt]]; [|done|].
          - exfalso. by eapply Hlast.
          - exfalso. by eapply Hlast'. }
        exact Hp.
  - unfold ret in Hparams. simplify_eq. split; [|done].
    split; intros [? ?]; discriminate.
Qed.

(** X20. In every state the module can reach, nothing is stored under
    the name of an inherited property, neither in the query cache nor
    in a bucket of the pattern cache: for such a name both caches keep
    answering with the inherited built-in. *)
Theorem inherited_names_are_never_stored st name :
  reachable (A := A) st →
  inherited name = true →
  queries st !! name = None ∧
  (∀ key, cache_lookup st key name = None) ∧
  (parseSearch name st).1 = Ret (QInherited [name]) ∧
  ∀ o, (compilePath name o st).1 = Ret (Inherited [name]).
Proof.
  intros Hreach Hinh. apply reachable_tidy in Hreach as (_ & Hq & Hp).
  split; [by apply Hq|]. split; [intros key; by apply Hp|]. split.
  - unfold parseSearch. run. by rewrite Hq, Hinh.
  - intros o. pose proof (compilePath_spec name o st) as Hspec.
    rewrite Hp, Hinh in Hspec by done.
    by destruct Hspec as (st' & -> & _).
Qed.

End Proofs.

(** * The properties at concrete inputs *)

#[local] Existing Instance Sample.externals.
Import Sample (o0).

(** A location whose path the pattern ["/a"] rejects, with query and
    hash matchers that would have to be evaluated otherwise. *)
Lemma path_failure_fails_fast_witness :
  let l : string + Location.t := inr (Location.mk "/b" "?x=1" "sec") in
  let m := Matchers.mk "/a" (Some [("x", MFunction (λ _, true))]) (Some (MString "sec")) in
  let st1 := (matchPath "/b" "/a" o0 init).2 in
  decompose l init = (Ret (Location.mk "/b" "?x=1" "sec"), init) ∧
  matchPath "/b" "/a" o0 init = (Ret (None, []), st1) ∧
  matchUrl l m o0 init = (Ret None, st1) ∧
  queries st1 = queries init ∧
  logs compile_or_exec init st1 ∧
  ∀ query hash, matchUrl l (Matchers.mk "/a" query hash) o0 init = (Ret None, st1).
Proof.
  intros l m st1.
  assert (decompose l init = (Ret (Location.mk "/b" "?x=1" "sec"), init)) as H1
    by reflexivity.
  assert (matchPath "/b" "/a" o0 init = (Ret (None, []), st1)) as H2
    by (vm_compute; reflexivity).
  exact (conj H1 (conj H2 (path_failure_fails_fast l m o0 init _ init [] st1 H1 H2))).
Defined.

(** A fragment ["other"] against the truthy matcher ["sec"], and the
    falsy matcher [false], which is skipped. *)
Lemma truthy_hash_is_checked_witness :
  let l : string + Location.t := inr (Location.mk "/a" "" "other") in
  let m := Matchers.mk "/a" None (Some (MString "sec")) in
  let m' := Matchers.mk "/a" None (Some (MBoolean false)) in
  let st1 := (matchPath "/a" "/a" o0 init).2 in
  (decompose l init = (Ret (Location.mk "/a" "" "other"), init) ∧
   matchPath "/a" "/a" o0 init = (Ret (Some [Some "/a"], []), st1) ∧
   matchQuery (Some "") None st1 = (Ret (Some QLiteral), st1) ∧
   Matchers.hash m = Some (MString "sec") ∧
   truthy (MString "sec") = true ∧
   matchVal (VString "other") (MString "sec") st1 = (Ret false, st1) ∧
   matchUrl l m o0 init = (Ret None, st1)) ∧
  (Matchers.hash m' = Some (MBoolean false) ∧
   truthy (MBoolean false) = false ∧
   matchUrl l m' o0 init
   = (outcome_map (option_map (with_matchers m')) (matchUrl l (without_hash m') o0 init).1,
      (matchUrl l (without_hash m') o0 init).2)).
Proof.
  intros l m m' st1.
  destruct (truthy_hash_is_checked (A := string)) as [Hchecked Hskipped].
  split.
  - assert (decompose l init = (Ret (Location.mk "/a" "" "other"), init)) as H1
      by reflexivity.
    assert (matchPath "/a" "/a" o0 init = (Ret (Some [Some "/a"], []), st1)) as H2
      by (vm_compute; reflexivity).
    assert (matchQuery (Some "") None st1 = (Ret (Some QLiteral), st1)) as H3
      by (vm_compute; reflexivity).
    assert (Matchers.hash m = Some (MString "sec")) as H4 by reflexivity.
    assert (truthy (MString "sec") = true) as H5 by reflexivity.
    assert (matchVal (VString "other") (MString "sec") st1 = (Ret false, st1)) as H6
      by reflexivity.
    exact (conj H1 (conj H2 (conj H3 (conj H4 (conj H5 (conj H6
             (Hchecked l m o0 init _ init _ [] st1 QLiteral st1 _ st1
                       H1 H2 H3 H4 H5 H6))))))).
  - assert (Matchers.hash m' = Some (MBoolean false)) as H1 by reflexivity.
    assert (truthy (MBoolean false) = false) as H2 by reflexivity.
    exact (conj H1 (conj H2 (Hskipped l m' o0 init _ H1 H2))).
Defined.

(** C3 as stated fails: the [hash] field is supplied as [false] (resp.
    as the empty string), [matchVal] answers [false] on the fragment,
    and [matchUrl] returns a result all the same. *)
Lemma supplied_falsy_hash_is_not_checked :
  let st1 := (matchPath "/a" "/a" o0 init).2 in
  let l1 : string + Location.t := inr (Location.mk "/a" "" "") in
  let m1 := Matchers.mk "/a" None (Some (MBoolean false)) in
  let l2 : string + Location.t := inr (Location.mk "/a" "" "x") in
  let m2 := Matchers.mk "/a" None (Some (MString "")) in
  (matchVal (VString "") (MBoolean false) st1 = (Ret false, st1) ∧
   matchUrl l1 m1 o0 init
   = (Ret (Some (MatchResult.mk None QLiteral "" (Some "/a") m1 false)), st1)) ∧
  (matchVal (VString "x") (MString "") st1 = (Ret false, st1) ∧
   matchUrl l2 m2 o0 init
   = (Ret (Some (MatchResult.mk None QLiteral "x" (Some "/a") m2 false)), st1)).
Proof. intros st1 l1 m1 l2 m2. repeat split; vm_compute; reflexivity. Qed.

(** The empty path against the pattern ["/"]: index 0 of the match is
    the empty string. *)
Lemma root_pattern_matchedPath_witness :
  let l : string + Location.t := inr (Location.mk "" "" "") in
  let m := Matchers.mk "/" None None in
  let st1 := (matchPath "" "/" o0 init).2 in
  let r := MatchResult.mk None QLiteral "" (Some "/") m false in
  Matchers.path m = "/" ∧
  matchUrl l m o0 init = (Ret (Some r), st1) ∧
  decompose l init = (Ret (Location.mk "" "" ""), init) ∧
  matchPath "" "/" o0 init = (Ret (Some [Some ""], []), st1) ∧
  head [Some ""] = Some (Some "") ∧
  MatchResult.matchedPath r ≠ Some "" ∧
  MatchResult.matchedPath r = Some "/".
Proof.
  intros l m st1 r.
  assert (Matchers.path m = "/") as H1 by reflexivity.
  assert (matchUrl l m o0 init = (Ret (Some r), st1)) as H2 by (vm_compute; reflexivity).
  assert (decompose l init = (Ret (Location.mk "" "" ""), init)) as H3 by reflexivity.
  assert (matchPath "" "/" o0 init = (Ret (Some [Some ""], []), st1)) as H4
    by (vm_compute; reflexivity).
  assert (head [Some ""] = Some (Some "")) as H5 by reflexivity.
  destruct (root_pattern_matchedPath l m o0 init r st1 H1 H2) as [Hne Heq].
  exact (conj H1 (conj H2 (conj H3 (conj H4 (conj H5
           (conj Hne (Heq _ init _ [] st1 H3 H4 H5))))))).
Defined.

(** C8, at an input where the code departs from it. For the pattern
    ["/:__proto__"] the compiler gives the key [__proto__]; the
    assignment [params[key.name] = ...] then runs the setter that [{}]
    inherits and creates no property, so the [params] of the result
    binds no name at all, whatever [transform] returns. *)
Theorem proto_key_is_no_own_param :
  (∀ (f : option string → string → string) values st,
     ∃ st', reduce_params f values [mkKey "__proto__"] 0 Params.empty st
            = (Ret (Params.mk ∅ (Some (f (default None (values !! 0)) "__proto__", []))),
               st')) ∧
  let l : string + Location.t := inr (Location.mk "/x" "" "") in
  let m := Matchers.mk "/:__proto__" None None in
  let o : Options.t string := Options.mk None None (Some Sample.mark) in
  compiler_output "/:__proto__" o = Sample.compile "/:__proto__" true false ∧
  (matchPath "/x" "/:__proto__" o init).1 = Ret (Some [Some "/x"; Some "x"], [mkKey "__proto__"]) ∧
  (matchUrl l m o init).1
  = Ret (Some (MatchResult.mk (Some (Params.mk ∅ (Some ("x!", [])))) QLiteral ""
                              (Some "/x") m false)) ∧
  ∀ r, (matchUrl l m o init).1 = Ret (Some r) →
       ∃ p, MatchResult.params r = Some p ∧ Params.own p !! "__proto__" = None.
Proof.
  split.
  - intros f values st. eexists. reflexivity.
  - intros l m o.
    assert ((matchUrl l m o init).1
            = Ret (Some (MatchResult.mk (Some (Params.mk ∅ (Some ("x!", [])))) QLiteral ""
                                        (Some "/x") m false))) as Hrun
      by (vm_compute; reflexivity).
    split; [reflexivity|]. split; [vm_compute; reflexivity|]. split; [exact Hrun|].
    intros r Hr. rewrite Hrun in Hr. injection Hr as <-. by eexists.
Qed.

(** A call in the initial state and in the state another call leaves:
    the pattern [/sec/g] has the same [lastIndex] in both; and a call
    without such a pattern, repeated. *)
Lemma matchUrl_result_independent_of_caches_witness :
  let l : string + Location.t := inl "/users/42?x=1#sec" in
  let m := Matchers.mk "/users/:id" (Some [("x", MString "1")])
                       (Some (MRegExp Sample.sec_g)) in
  let m' := Matchers.mk "/users/:id" (Some [("x", MString "1")]) (Some (MString "sec")) in
  let o : Options.t string := Options.mk None None (Some Sample.mark) in
  let st2 := (matchUrl l m' o init).2 in
  reachable (A := string) init ∧ reachable (A := string) st2 ∧
  (∀ r, r ∈ matcher_patterns m → advancing r = true →
     default 0 (lastIndex init !! pid r) = default 0 (lastIndex st2 !! pid r)) ∧
  (matchUrl l m o init).1 = (matchUrl l m o st2).1 ∧
  stateless m' ∧
  (matchUrl l m' o init).1 = (matchUrl l m' o st2).1 ∧
  (matchUrl l m' o st2).1 = (matchUrl l m' o init).1.
Proof.
  intros l m m' o st2.
  assert (reachable (A := string) init) as H1 by apply rtc_refl.
  assert (reachable (A := string) st2) as H2 by (apply rtc_once; constructor).
  assert (lastIndex st2 = ∅) as Hli by (vm_compute; reflexivity).
  assert (∀ r, r ∈ matcher_patterns m → advancing r = true →
            default 0 (lastIndex init !! pid r) = default 0 (lastIndex st2 !! pid r)) as H3.
  { intros r _ _. rewrite Hli. reflexivity. }
  assert (∀ r, r ∈ matcher_patterns m' → advancing r = true →
            default 0 (lastIndex init !! pid r) = default 0 (lastIndex st2 !! pid r)) as H3'.
  { intros r _ _. rewrite Hli. reflexivity. }
  assert (stateless m') as H4 by constructor.
  destruct (matchUrl_result_independent_of_caches l m' o init st2 H1 H2 H3') as [H5 H6].
  exact (conj H1 (conj H2 (conj H3
           (conj (proj1 (matchUrl_result_independent_of_caches l m o init st2 H1 H2 H3))
                 (conj H4 (conj H5 (H6 H4))))))).
Defined.

(** C9 as stated fails: with the pattern [/sec/g] as hash matcher, three
    calls with the same arguments, made one after the other from the
    initial state, return a result, [null], and the result again; the
    caches are the same before the second and before the third call. *)
Lemma repeated_call_with_global_pattern_alternates :
  let l : string + Location.t := inl "/a#sec" in
  let m := Matchers.mk "/a" None (Some (MRegExp Sample.sec_g)) in
  let r := MatchResult.mk None QLiteral "sec" (Some "/a") m false in
  let first := matchUrl l m o0 init in
  let second := matchUrl l m o0 first.2 in
  let third := matchUrl l m o0 second.2 in
  first.1 = Ret (Some r) ∧ second.1 = Ret None ∧ third.1 = Ret (Some r) ∧
  second.1 ≠ first.1 ∧
  reachable (A := string) init ∧ reachable (A := string) first.2 ∧
  queries second.2 = queries first.2 ∧
  patternCache second.2 = patternCache first.2 ∧
  cacheCount second.2 = cacheCount first.2 ∧
  (cacheCount first.2 < cacheLimit)%Z.
Proof.
  intros l m r first second third.
  assert (first.1 = Ret (Some r)) as H1 by (vm_compute; reflexivity).
  assert (second.1 = Ret None) as H2 by (vm_compute; reflexivity).
  split; [exact H1|]. split; [exact H2|]. split; [vm_compute; reflexivity|].
  split; [rewrite H1, H2; discriminate|].
  split; [apply rtc_refl|]. split; [apply rtc_once; constructor|].
  repeat split; vm_compute; reflexivity.
Qed.

(** A first call whose path the pattern ["/a"] rejects. *)
Lemma path_failure_still_caches_witness :
  let l : string + Location.t := inr (Location.mk "/b" "?x=1" "") in
  let m := Matchers.mk "/a" None None in
  let st1 := (matchPath "/b" "/a" o0 init).2 in
  decompose l init = (Ret (Location.mk "/b" "?x=1" ""), init) ∧
  matchPath "/b" "/a" o0 init = (Ret (None, []), st1) ∧
  cache_lookup init (key_of o0) "/a" = None ∧
  (cacheCount init < cacheLimit)%Z ∧
  matchUrl l m o0 init = (Ret None, st1) ∧
  queries st1 = queries init ∧
  cacheCount st1 = (cacheCount init + 1)%Z ∧
  is_Some (cache_lookup st1 (key_of o0) "/a").
Proof.
  intros l m st1.
  assert (decompose l init = (Ret (Location.mk "/b" "?x=1" ""), init)) as H1
    by reflexivity.
  assert (matchPath "/b" "/a" o0 init = (Ret (None, []), st1)) as H2
    by (vm_compute; reflexivity).
  assert (cache_lookup init (key_of o0) "/a" = None) as H3 by reflexivity.
  assert (cacheCount init < cacheLimit)%Z as H4 by reflexivity.
  destruct (path_failure_still_caches l m o0 init _ init [] st1 H1 H2)
    as (Hnull & Hq & Hmiss).
  destruct (Hmiss H3) as (r & _ & _ & Hbelow).
  destruct (Hbelow H4) as [Hcount Hlook].
  repeat (split; [done|]). eexists. exact Hlook.
Defined.

(** C10 as stated fails: a second call with the same arguments returns
    [null] on the same path failure while the counter is below the
    ceiling, and neither compiles, nor stores, nor counts. *)
Lemma repeated_path_failure_changes_no_cache :
  let l : string + Location.t := inr (Location.mk "/b" "" "") in
  let m := Matchers.mk "/a" None None in
  let st1 := (matchUrl l m o0 init).2 in
  let st2 := (matchUrl l m o0 st1).2 in
  (matchUrl l m o0 st1).1 = Ret None ∧
  (cacheCount st1 < cacheLimit)%Z ∧
  cacheCount st2 ≠ (cacheCount st1 + 1)%Z ∧
  cacheCount st2 = cacheCount st1 ∧
  patternCache st2 = patternCache st1 ∧
  queries st2 = queries st1 ∧
  nextOid st2 = nextOid st1 ∧
  trace st2 = CallExec 0 "/b" :: trace st1.
Proof.
  intros l m st1 st2. repeat split; try (vm_compute; reflexivity).
  vm_compute. discriminate.
Qed.

(** * The further properties at concrete inputs *)

(** A parse stored by one call is still there after another call. *)
Lemma query_cache_only_grows_witness :
  let st := (matchUrl (inl "/a?x=1") (Matchers.mk "/a" None None) o0 init).2 in
  let st' := (matchUrl (inl "/b?x=2") (Matchers.mk "/b" None None) o0 st).2 in
  steps (A := string) st st' ∧
  queries st !! "?x=1" = Some (Sample.parse "?x=1") ∧
  queries st' !! "?x=1" = Some (Sample.parse "?x=1").
Proof.
  intros st st'.
  assert (steps (A := string) st st') as H1 by (apply rtc_once; constructor).
  assert (queries st !! "?x=1" = Some (Sample.parse "?x=1")) as H2
    by (vm_compute; reflexivity).
  exact (conj H1 (conj H2 (query_cache_only_grows st st' _ _ H1 H2))).
Defined.

(** The pattern ["/a"], compiled by a first call, after a second call. *)
Lemma cached_pattern_served_forever_witness :
  let st := (matchUrl (inl "/a") (Matchers.mk "/a" None None) o0 init).2 in
  let st' := (matchUrl (inl "/b") (Matchers.mk "/b" None None) o0 st).2 in
  steps (A := string) st st' ∧
  ∃ c, cache_lookup st (key_of o0) "/a" = Some c ∧
    compilePath "/a" o0 st' = (Ret (Stored c), st').
Proof.
  intros st st'.
  assert (steps (A := string) st st') as H1 by (apply rtc_once; constructor).
  assert (is_Some (cache_lookup st (key_of o0) "/a")) as [c H2]
    by (vm_compute; eexists; reflexivity).
  split; [done|]. exists c. split; [done|].
  exact (cached_pattern_served_forever "/a" o0 st st' c H1 H2).
Defined.

(** The state after a call that compiles a pattern and parses a query. *)
Lemma caches_hold_what_the_capabilities_compute_witness :
  let st := (matchUrl (inl "/users/42?x=1") (Matchers.mk "/users/:id" None None) o0 init).2 in
  reachable (A := string) st ∧
  (∀ s q, queries st !! s = Some q → q = Sample.parse s) ∧
  (∀ pattern (o : Options.t string) c,
     cache_lookup st (key_of o) pattern = Some c →
     Sample.compile pattern (negb (default false (Options.partial o)))
                    (default false (Options.strict o)) = Some (re c, keys c)).
Proof.
  intros st.
  assert (reachable (A := string) st) as H1 by (apply rtc_once; constructor).
  exact (conj H1 (caches_hold_what_the_capabilities_compute st H1)).
Defined.

(** The counter after two calls with different patterns. *)
Lemma counter_counts_cached_patterns_witness :
  let st1 := (matchUrl (inl "/a") (Matchers.mk "/a" None None) o0 init).2 in
  let st := (matchUrl (inl "/b") (Matchers.mk "/users/:id" None None)
                      (Options.mk (A := string) (Some true) None None) st1).2 in
  reachable (A := string) st ∧
  cacheCount st = 2%Z ∧
  cacheCount st = Z.of_nat (total_entries st) ∧
  (Z.of_nat (total_entries st) ≤ cacheLimit)%Z ∧
  ∀ k, is_Some (patternCache st !! k) → k ∈ bucket_keys.
Proof.
  intros st1 st.
  assert (reachable (A := string) st) as H1.
  { eapply rtc_l; [constructor|]. apply rtc_once. constructor. }
  assert (cacheCount st = 2%Z) as H2 by (vm_compute; reflexivity).
  exact (conj H1 (conj H2 (counter_counts_cached_patterns st H1))).
Defined.

(** A call for ["/a"] and the entry of another pattern. *)
Lemma matchUrl_touches_one_entry_witness :
  let st := (matchUrl (inl "/b") (Matchers.mk "/b" None None) o0 init).2 in
  let st' := (matchUrl (inl "/a") (Matchers.mk "/a" None None) o0 st).2 in
  ("ff" ≠ key_of o0 ∨ "/b" ≠ "/a") ∧
  cache_lookup st' "ff" "/b" = cache_lookup st "ff" "/b" ∧
  is_Some (cache_lookup st "ff" "/b").
Proof.
  intros st st'.
  assert ("ff" ≠ key_of o0 ∨ "/b" ≠ "/a") as H1 by (right; discriminate).
  assert (is_Some (cache_lookup st "ff" "/b")) as H2 by (vm_compute; eexists; reflexivity).
  exact (conj H1 (conj (matchUrl_touches_one_entry
                          (inl "/a") (Matchers.mk "/a" None None) o0 st "ff" "/b" H1) H2)).
Defined.

(** The pattern ["("], which the sample compiler rejects. *)
Lemma rejected_pattern_raises_witness :
  let l : string + Location.t := inl "/a?x=1" in
  let m := Matchers.mk "(" None None in
  coherent init ∧
  compiler_output "(" o0 = None ∧
  ∃ st', matchUrl l m o0 init = (Throw, st') ∧
    queries st' = queries init ∧ cacheCount st' = cacheCount init ∧
    (∀ k q, cache_lookup st' k q = cache_lookup init k q) ∧
    trace st' = [CallPathToRegexp "(" true false; CallParsePath "/a?x=1"] ∧
    (matchUrl l m o0 st').1 = Throw.
Proof.
  intros l m.
  assert (compiler_output "(" o0 = None) as H1 by reflexivity.
  exact (conj init_coherent (conj H1 (rejected_pattern_raises l m o0 init init_coherent H1))).
Defined.

(** A failing first key, with a predicate behind it. *)
Lemma matchQuery_stops_at_first_failure_witness :
  let pre := [("x", MString "1")] in
  let post := [("y", MFunction (λ _, true))] in
  (matchQuery (Some "?x=2") (Some pre) init).1 = Ret None ∧
  matchQuery (Some "?x=2") (Some (pre ++ post)%list) init
  = matchQuery (Some "?x=2") (Some pre) init.
Proof.
  intros pre post.
  assert ((matchQuery (Some "?x=2") (Some pre) init).1 = Ret None) as H1
    by (vm_compute; reflexivity).
  exact (conj H1 (matchQuery_stops_at_first_failure (Some "?x=2") pre post init H1)).
Defined.


(** ["/users/42"] against ["/users/:id"] with a transform. *)
Lemma transform_called_once_per_key_witness :
  let l : string + Location.t := inr (Location.mk "/users/42" "" "") in
  let m := Matchers.mk "/users/:id" None None in
  let o : Options.t string := Options.mk None None (Some Sample.mark) in
  let run := matchUrl l m o init in
  ∃ res, run = (Ret res, run.2) ∧
    ∃ st0 mt ks st1 st3,
      decompose l init = (Ret (loc_of l), st0) ∧
      matchPath "/users/42" "/users/:id" o st0 = (Ret (mt, ks), st1) ∧
      logs not_transform init st3 ∧
      trace run.2
      = (match res, mt, Options.transform o with
         | Some _, Some match_, Some _ => reverse (transform_calls (tail match_) ks)
         | _, _, _ => []
         end ++ trace st3)%list.
Proof.
  intros l m o run.
  assert (is_Some (match run.1 with Ret res => Some res | Throw => None end)) as [res Hres]
    by (vm_compute; eexists; reflexivity).
  assert (run = (Ret res, run.2)) as H1.
  { destruct run as [[res'|] st']; simpl in *; congruence. }
  exists res. split; [done|].
  exact (transform_called_once_per_key l m o init res run.2 H1).
Defined.


(** A result for the path ["/a"] with a query no matcher names. *)
Lemma match_result_fields_witness :
  let l : string + Location.t := inr (Location.mk "/a" "?x=1" "sec") in
  let m := Matchers.mk "/a" None None in
  let r := MatchResult.mk None (QParsed (Sample.parse "?x=1")) "sec" (Some "/a") m false in
  tidy init ∧
  (matchUrl l m o0 init).1 = Ret (Some r) ∧
  MatchResult.query r = query_of (Some "?x=1") ∧
  MatchResult.hash r = "sec" ∧
  MatchResult.matchers r = m ∧
  MatchResult.partial r = false.
Proof.
  intros l m r.
  assert ((matchUrl l m o0 init).1 = Ret (Some r)) as H1 by (vm_compute; reflexivity).
  destruct (match_result_fields l m o0 init r init_tidy H1) as (H2 & H3 & H4 & H5 & _).
  exact (conj init_tidy (conj H1 (conj H2 (conj H3 (conj H4 H5))))).
Defined.

Lemma string_location_is_decomposed_witness :
  let m := Matchers.mk "/a" (Some [("x", MString "1")]) (Some (MString "sec")) in
  coherent init ∧
  (matchUrl (inl "/a?x=1#sec") m o0 init).1
  = (matchUrl (inr (parsePath "/a?x=1#sec")) m o0 init).1.
Proof.
  intros m.
  exact (conj init_coherent
           (string_location_is_decomposed "/a?x=1#sec" m o0 init init_coherent)).
Defined.

(** A call that fails on the query, after the path has matched. *)
Lemma matched_path_caches_the_query_witness :
  let l : string + Location.t := inr (Location.mk "/a" "?x=2" "") in
  let m := Matchers.mk "/a" (Some [("x", MString "1")]) None in
  tidy init ∧
  inherited "/a" = false ∧ inherited "?x=2" = false ∧
  (matchUrl l m o0 init).1 = Ret None ∧
  queries (matchUrl l m o0 init).2 !! "?x=2" = Some (Sample.parse "?x=2").
Proof.
  intros l m.
  assert ((matchUrl l m o0 init).1 = Ret None) as H0 by (vm_compute; reflexivity).
  assert (inherited (Matchers.path m) = false) as Hp by (vm_compute; reflexivity).
  assert (compiler_output "/a" o0
          = Some (mkRegExp (λ path, if bool_decide (path = "/a")
                                    then Some [Some path] else None), [])) as H1
    by reflexivity.
  assert (exec (mkRegExp (λ path, if bool_decide (path = "/a")
                                  then Some [Some path] else None))
               (Location.pathname (loc_of l)) = Some [Some "/a"]) as H2
    by reflexivity.
  assert (Location.search (loc_of l) ≠ "") as H3 by discriminate.
  assert (inherited (Location.search (loc_of l)) = false) as H4
    by (vm_compute; reflexivity).
  exact (conj init_tidy
           (conj Hp (conj H4 (conj H0
              (matched_path_caches_the_query l m o0 init _ _ _ init_tidy Hp H1 H2 H3 H4))))).
Defined.

(** The same call twice from the initial state. *)
Lemma repeated_call_uses_the_caches_witness :
  let l : string + Location.t := inl "/users/42?x=1" in
  let m := Matchers.mk "/users/:id" (Some [("x", MString "1")]) None in
  coherent init ∧
  (cacheCount init < cacheLimit)%Z ∧
  is_Some (compiler_output "/users/:id" o0) ∧
  logs no_compile_no_parse (matchUrl l m o0 init).2
       (matchUrl l m o0 (matchUrl l m o0 init).2).2.
Proof.
  intros l m.
  assert (cacheCount init < cacheLimit)%Z as H1 by reflexivity.
  assert (is_Some (compiler_output "/users/:id" o0)) as H2
    by (vm_compute; eexists; reflexivity).
  exact (conj init_coherent
           (conj H1 (conj H2 (repeated_call_uses_the_caches l m o0 init init_coherent H1 H2)))).
Defined.

(** Driving the module is a sequence of calls. *)
Lemma drive_steps n st : steps (A := string) st (Sample.drive n st).
Proof.
  unfold Sample.drive.
  apply (N.iter_invariant n _ Sample.drive_step (λ p, steps (A := string) st p.2)).
  - intros [i st'] Hsteps. simpl in *. eapply rtc_r; [exact Hsteps|]. constructor.
  - apply rtc_refl.
Qed.

(** The latch on the state reached by ten thousand calls with pairwise
    different patterns, and on the initial state for the part below the
    ceiling. *)
Lemma compile_counter_latch_witness :
  let full := Sample.drive (Z.to_N cacheLimit) init in
  let out := Sample.compile "/new" true false in
  (reachable (A := string) full ∧ (cacheCount full ≤ cacheLimit)%Z) ∧
  (cache_lookup init (key_of o0) "/new" = None ∧
   inherited "/new" = false ∧
   compiler_output "/new" o0 = out ∧
   (cacheCount init < cacheLimit)%Z ∧
   ∃ c st', compilePath "/new" o0 init = (Ret (Stored c), st') ∧
     Some (re c, keys c) = out ∧
     cache_lookup st' (key_of o0) "/new" = Some c ∧
     cacheCount st' = (cacheCount init + 1)%Z) ∧
  (cache_lookup full (key_of o0) "/new" = None ∧
   (cacheLimit ≤ cacheCount full)%Z ∧
   ∃ c st', compilePath "/new" o0 full = (Ret (Stored c), st') ∧
     Some (re c, keys c) = out ∧
     cacheCount st' = cacheCount full ∧
     cache_lookup st' (key_of o0) "/new" = None ∧
     ∃ c2 st'', compilePath "/new" o0 st' = (Ret (Stored c2), st'') ∧
       Some (re c2, keys c2) = out ∧ oid c2 ≠ oid c) ∧
  (let st' := (matchUrl (inl "/new") (Matchers.mk "/new" None None) o0 full).2 in
   steps (A := string) full st' ∧ cacheCount st' = cacheCount full ∧
   cache_lookup st' (key_of o0) "/new" = None) ∧
  (let st := (matchUrl (inl "/a") (Matchers.mk "/a" None None) o0 init).2 in
   let st' := (matchUrl (inl "/b") (Matchers.mk "/b" None None) o0 st).2 in
   steps (A := string) st st' ∧
   cache_lookup st' (key_of o0) "/a" = cache_lookup st (key_of o0) "/a" ∧
   is_Some (cache_lookup st (key_of o0) "/a")).
Proof.
  intros full out.
  assert ((cacheCount full, cache_lookup full (key_of o0) "/new") = (cacheLimit, None))
    as Hfull by (vm_compute; reflexivity).
  assert (reachable (A := string) full) as Hreach by apply drive_steps.
  clearbody full.
  injection Hfull as Hcount Hmiss'.
  assert (cacheLimit ≤ cacheCount full)%Z as Hge by (rewrite Hcount; reflexivity).
  destruct (compile_counter_latch (A := string))
    as (Hbound & Hbelow & Hceiling & Hlatch & Hkeep).
  assert (cache_lookup init (key_of o0) "/new" = None) as Hmiss by reflexivity.
  assert (inherited "/new" = false) as Hinh by (vm_compute; reflexivity).
  assert (compiler_output "/new" o0 = out) as Hout by reflexivity.
  assert (cacheCount init < cacheLimit)%Z as Hlt by reflexivity.
  split; [|split; [|split; [|split]]].
  - exact (conj Hreach (Hbound full Hreach)).
  - destruct (Hbelow "/new" o0 init _ _ Hmiss Hinh Hout Hlt)
      as (c & st' & Hrun & Hre & Hkeys & Hlook & Hcount').
    repeat (split; [done|]). exists c, st'. rewrite Hre, Hkeys. done.
  - destruct (Hceiling "/new" o0 full _ _ Hmiss' Hinh Hout Hge)
      as (c & st' & Hrun & Hre & Hkeys & Hcount' & Hk
          & c2 & st'' & Hrun2 & Hre2 & Hkeys2 & Hoid & _).
    repeat (split; [done|]). exists c, st'. rewrite Hre, Hkeys.
    repeat (split; [done|]). split; [by rewrite Hk|].
    exists c2, st''. rewrite Hre2, Hkeys2. done.
  - intros st'.
    assert (steps (A := string) full st') as Hsteps by (apply rtc_once; constructor).
    destruct (Hlatch full st' Hsteps Hge) as [Hcount' Hk].
    split; [done|]. split; [done|]. by rewrite Hk.
  - intros st st'.
    assert (steps (A := string) st st') as Hsteps by (apply rtc_once; constructor).
    assert (is_Some (cache_lookup st (key_of o0) "/a")) as [c Hc]
      by (vm_compute; eexists; reflexivity).
    pose proof (Hkeep st st' _ _ _ Hsteps Hc) as Hc'.
    split; [done|]. rewrite Hc', Hc. split; [done|]. by eexists.
Defined.

(** Compiling ["/users/:id"] twice from the initial state. *)
Lemma compile_twice_same_object_witness :
  let first := compilePath "/users/:id" o0 init in
  ((cacheCount init < cacheLimit)%Z ∧
   (∃ c, first.1 = Ret (Stored c) ∧
      compilePath "/users/:id" o0 first.2 = (Ret (Stored c), first.2) ∧
      cache_lookup first.2 "ff" "/users/:id" = Some c)) ∧
  (inherited "/users/:id" = false ∧
   is_Some (compiler_output "/users/:id" o0) ∧
   ∃ c st1, compilePath "/users/:id" o0 init = (Ret (Stored c), st1)) ∧
  (cacheKey true false = cacheKey true false → true = true ∧ false = false).
Proof.
  intros first.
  destruct (compile_twice_same_object (A := string)) as (Htwice & Hreturns & Hinj).
  split; [|split].
  - assert (cacheCount init < cacheLimit)%Z as Hlt by reflexivity.
    assert (is_Some (match first.1 with Ret (Stored c) => Some c | _ => None end))
      as [c Hc] by (vm_compute; eexists; reflexivity).
    assert (compilePath "/users/:id" o0 init = (Ret (Stored c), first.2)) as Hrun.
    { subst first. destruct (compilePath "/users/:id" o0 init) as [[[c'|b]|] st1];
        simpl in *; congruence. }
    split; [done|]. exists c.
    split; [subst first; by rewrite Hrun|].
    exact (Htwice "/users/:id" o0 init c first.2 Hlt Hrun).
  - assert (inherited "/users/:id" = false) as Hinh by (vm_compute; reflexivity).
    assert (is_Some (compiler_output "/users/:id" o0)) as Hout
      by (vm_compute; eexists; reflexivity).
    exact (conj Hinh (conj Hout (Hreturns "/users/:id" o0 init Hinh Hout))).
  - exact (Hinj true false true false).
Defined.


(** ["/users/42"] against ["/users/:id"] with a transform. *)
Lemma params_iff_transform_witness :
  let l : string + Location.t := inr (Location.mk "/users/42" "" "") in
  let m := Matchers.mk "/users/:id" None None in
  let o : Options.t string := Options.mk None None (Some Sample.mark) in
  let st1 := (matchPath "/users/42" "/users/:id" o init).2 in
  let run := matchUrl l m o init in
  decompose l init = (Ret (Location.mk "/users/42" "" ""), init) ∧
  matchPath "/users/42" "/users/:id" o init
  = (Ret (Some [Some "/users/42"; Some "42"], [mkKey "id"]), st1) ∧
  (∀ key, key ∈ [mkKey "id"] → name key ≠ "__proto__") ∧
  ∃ r, run = (Ret (Some r), run.2) ∧
    (is_Some (MatchResult.params r) ↔ is_Some (Options.transform o)) ∧
    ∃ p, MatchResult.params r = Some p ∧ Params.proto_assigned p = None ∧
      Params.own p !! "id" = Some "42!".
Proof.
  intros l m o st1 run.
  assert (decompose l init = (Ret (Location.mk "/users/42" "" ""), init)) as H1
    by reflexivity.
  assert (matchPath "/users/42" "/users/:id" o init
          = (Ret (Some [Some "/users/42"; Some "42"], [mkKey "id"]), st1)) as H2
    by (vm_compute; reflexivity).
  assert (∀ key, key ∈ [mkKey "id"] → name key ≠ "__proto__") as Hproto.
  { intros key Hin. apply list_elem_of_singleton in Hin as ->. discriminate. }
  assert (is_Some (match run.1 with Ret (Some r) => Some r | _ => None end)) as [r Hr]
    by (vm_compute; eexists; reflexivity).
  assert (run = (Ret (Some r), run.2)) as H3.
  { destruct run as [[[r'|]|] st']; simpl in *; congruence. }
  split; [done|]. split; [done|]. split; [done|]. exists r. split; [done|].
  destruct (params_iff_transform l m o init r run.2 _ init _ _ st1 H1 H2 H3)
    as (Hiff & _ & Hsome).
  split; [done|].
  destruct (Hsome Sample.mark eq_refl Hproto) as (p & Hp & Hnone & _ & Hpos).
  exists p. split; [done|]. split; [done|].
  apply (Hpos 0 (mkKey "id") eq_refl).
  intros j key' Hj Hlook. destruct j as [|[|j]]; [lia|discriminate..].
Defined.

(** The name [constructor] after a call that used it as pattern and as
    search string. *)
Lemma inherited_names_are_never_stored_witness :
  let st := (matchUrl (inr (Location.mk "/a" "constructor" ""))
                      (Matchers.mk "/a" None None) o0
                      (matchUrl (inl "/a") (Matchers.mk "constructor" None None) o0 init).2).2 in
  reachable (A := string) st ∧
  inherited "constructor" = true ∧
  queries st !! "constructor" = None ∧
  (∀ key, cache_lookup st key "constructor" = None) ∧
  (parseSearch "constructor" st).1 = Ret (QInherited ["constructor"]) ∧
  ∀ o : Options.t string, (compilePath "constructor" o st).1 = Ret (Inherited ["constructor"]).
Proof.
  intros st.
  assert (reachable (A := string) st) as H1.
  { eapply rtc_l; [constructor|]. apply rtc_once. constructor. }
  assert (inherited "constructor" = true) as H2 by (vm_compute; reflexivity).
  exact (conj H1 (conj H2 (inherited_names_are_never_stored st "constructor" H1 H2))).
Defined.
